(** * The response-audio scheduler of the magic mirror

    A shallow embedding of the playback glue of
    [src/components/MagicMirror.tsx]: the [onmessage] handler of the live
    session (audio output and interruptions), the ['ended'] listener of a
    scheduled source, [startMirror] and [stopMirror].

    Conventions of the embedding.
    - JavaScript numbers that hold times (the [currentTime] of an
      [AudioContext], the [duration] of an [AudioBuffer], the playback
      cursor [nextStartTimeRef.current]) are rationals, as every finite
      binary64 value is one.  In [schedulePlayback], on which what concerns
      the order of times and the resets is proved, [+] and the duration
      are exact; [schedulePlaybackWith] is the same block over the sum and
      the duration as the platform computes them, whatever they are, and
      [plus64] and [duration64] are those of binary64.
    - The React refs and the React state of the component are the fields of
      one record, [World]; the browser objects the component talks to are
      represented by the chronological [log] of the calls made on them.
    - A computation is a function [World -> Completion A * World]: it ends
      normally or throws, and what it wrote before a throw stays written, as
      in JavaScript.
    - What the environment decides (a clock reading, [Math.random()],
      whether [stop()] throws, what [getUserMedia] answers) is an input of
      the operation that asks for it.
    - A run of the handler is one step: nothing else runs between its
      [await] and the code after it.  The block that schedules a chunk is
      a definition of its own, [schedulePlayback], and what is proved of
      it holds in whatever world the handler resumes. *)

From Stdlib Require Import QArith ZArith List String Bool Lia.
From Stdlib Require SpecFloat.
From Stdlib.Strings Require Import Byte.
Import ListNotations.

Set Implicit Arguments.

(** ** Data *)

(** [src/types.ts] *)
Inductive AppState : Type := IDLE | CONNECTING | ACTIVE | ERROR.

(** The part of a [LiveServerMessage] the handler reads.  Every field is
    optional, as in the SDK's type; the handler reads them through [?.]. *)
Record Blob : Type := mkBlob { data : option string }.
Record Part : Type := mkPart { inlineData : option Blob }.
Record Content : Type := mkContent { parts : option (list Part) }.
Record LiveServerContent : Type := mkServerContent {
  modelTurn : option Content;
  interrupted : option bool
}.
Record LiveServerMessage : Type := mkMessage {
  serverContent : option LiveServerContent
}.

(** Browser objects.  An [AudioBuffer] lasts [length / sampleRate] seconds. *)
Record AudioContext : Type := mkContext { ctxId : nat; ctxSampleRate : Z }.
Record AudioBuffer : Type := mkBuffer {
  sampleRate : positive;
  frameCount : N;
  numberOfChannels : positive
}.
Definition duration (b : AudioBuffer) : Q := Z.of_N (frameCount b) # sampleRate b.

Record MediaStream : Type := mkStream { getTracks : list nat }.
Definition Session : Type := nat.
Definition Exn : Type := string.

(** An [AudioBufferSourceNode] is known by the number [createBufferSource]
    gave it. *)
Definition SourceNode : Type := nat.

(** Calls on browser and SDK objects, and events delivered to listeners. *)
Inductive Call : Type :=
| SetTimeout (ms : Z)
| CreateBufferSource (c : AudioContext) (n : SourceNode)
| SetBuffer (n : SourceNode) (b : AudioBuffer)
| Connect (n : SourceNode) (c : AudioContext)
| AddEndedListener (n : SourceNode)
| SourceStart (n : SourceNode) (when : Q)
| SourceStop (n : SourceNode)
| EndedDelivered (n : SourceNode)
| TrackStop (t : nat)
| ContextClose (c : AudioContext)
| SetInterval (ms : Z) (id : Z)
| ClearInterval (id : Z)
| LiveConnect (s : Session)
| SessionSendRealtimeInput (s : Session)
| SessionClose (s : Session).

(** The refs and state of the component, and the world around it. *)
Record World : Type := mkWorld {
  streamRef : option MediaStream;
  inputAudioContextRef : option AudioContext;
  outputAudioContextRef : option AudioContext;
  nextStartTimeRef : Q;
  audioSourcesRef : list SourceNode;
  sessionPromiseRef : option Session;
  activeSessionRef : option Session;
  videoIntervalRef : option Z;
  appState : AppState;
  volumeLevel : Q;
  nextNode : nat;
  log : list Call
}.

(** The component as mounted: [useRef(null)], [useRef(0)],
    [useRef(new Set())], [useState(AppState.IDLE)], [useState(0)]. *)
Definition mounted : World :=
  mkWorld None None None 0 [] None None None IDLE 0 0 [].

Definition set_streamRef (v : option MediaStream) (w : World) : World :=
  mkWorld v (inputAudioContextRef w) (outputAudioContextRef w)
    (nextStartTimeRef w) (audioSourcesRef w) (sessionPromiseRef w)
    (activeSessionRef w) (videoIntervalRef w) (appState w) (volumeLevel w)
    (nextNode w) (log w).
Definition set_inputAudioContextRef (v : option AudioContext) (w : World) : World :=
  mkWorld (streamRef w) v (outputAudioContextRef w)
    (nextStartTimeRef w) (audioSourcesRef w) (sessionPromiseRef w)
    (activeSessionRef w) (videoIntervalRef w) (appState w) (volumeLevel w)
    (nextNode w) (log w).
Definition set_outputAudioContextRef (v : option AudioContext) (w : World) : World :=
  mkWorld (streamRef w) (inputAudioContextRef w) v
    (nextStartTimeRef w) (audioSourcesRef w) (sessionPromiseRef w)
    (activeSessionRef w) (videoIntervalRef w) (appState w) (volumeLevel w)
    (nextNode w) (log w).
Definition set_nextStartTimeRef (v : Q) (w : World) : World :=
  mkWorld (streamRef w) (inputAudioContextRef w) (outputAudioContextRef w)
    v (audioSourcesRef w) (sessionPromiseRef w)
    (activeSessionRef w) (videoIntervalRef w) (appState w) (volumeLevel w)
    (nextNode w) (log w).
Definition set_audioSourcesRef (v : list SourceNode) (w : World) : World :=
  mkWorld (streamRef w) (inputAudioContextRef w) (outputAudioContextRef w)
    (nextStartTimeRef w) v (sessionPromiseRef w)
    (activeSessionRef w) (videoIntervalRef w) (appState w) (volumeLevel w)
    (nextNode w) (log w).
Definition set_sessionPromiseRef (v : option Session) (w : World) : World :=
  mkWorld (streamRef w) (inputAudioContextRef w) (outputAudioContextRef w)
    (nextStartTimeRef w) (audioSourcesRef w) v
    (activeSessionRef w) (videoIntervalRef w) (appState w) (volumeLevel w)
    (nextNode w) (log w).
Definition set_videoIntervalRef (v : option Z) (w : World) : World :=
  mkWorld (streamRef w) (inputAudioContextRef w) (outputAudioContextRef w)
    (nextStartTimeRef w) (audioSourcesRef w) (sessionPromiseRef w)
    (activeSessionRef w) v (appState w) (volumeLevel w)
    (nextNode w) (log w).
Definition set_appState (v : AppState) (w : World) : World :=
  mkWorld (streamRef w) (inputAudioContextRef w) (outputAudioContextRef w)
    (nextStartTimeRef w) (audioSourcesRef w) (sessionPromiseRef w)
    (activeSessionRef w) (videoIntervalRef w) v (volumeLevel w)
    (nextNode w) (log w).
Definition set_volumeLevel (v : Q) (w : World) : World :=
  mkWorld (streamRef w) (inputAudioContextRef w) (outputAudioContextRef w)
    (nextStartTimeRef w) (audioSourcesRef w) (sessionPromiseRef w)
    (activeSessionRef w) (videoIntervalRef w) (appState w) v
    (nextNode w) (log w).
Definition set_nextNode (v : nat) (w : World) : World :=
  mkWorld (streamRef w) (inputAudioContextRef w) (outputAudioContextRef w)
    (nextStartTimeRef w) (audioSourcesRef w) (sessionPromiseRef w)
    (activeSessionRef w) (videoIntervalRef w) (appState w) (volumeLevel w)
    v (log w).
Definition set_log (v : list Call) (w : World) : World :=
  mkWorld (streamRef w) (inputAudioContextRef w) (outputAudioContextRef w)
    (nextStartTimeRef w) (audioSourcesRef w) (sessionPromiseRef w)
    (activeSessionRef w) (videoIntervalRef w) (appState w) (volumeLevel w)
    (nextNode w) v.

(** ** Computations that may throw *)

Inductive Completion (A : Type) : Type :=
| Normal (a : A)
| Throw (e : Exn).
Arguments Throw {A} e.

Definition JS (A : Type) : Type := World -> Completion A * World.

Definition ret {A : Type} (a : A) : JS A := fun w => (Normal a, w).

Definition bind {A B : Type} (m : JS A) (k : A -> JS B) : JS B :=
  fun w =>
    match m w with
    | (Normal a, w') => k a w'
    | (Throw e, w') => (Throw e, w')
    end.

Definition throw {A : Type} (e : Exn) : JS A := fun w => (Throw e, w).

(** [try { m } catch (e) { h e }] *)
Definition tryCatch {A : Type} (m : JS A) (h : Exn -> JS A) : JS A :=
  fun w =>
    match m w with
    | (Normal a, w') => (Normal a, w')
    | (Throw e, w') => h e w'
    end.

Definition read {A : Type} (f : World -> A) : JS A := fun w => (Normal (f w), w).
Definition modify (f : World -> World) : JS unit := fun w => (Normal tt, f w).

(** A call on a browser object: it is appended to the log. *)
Definition call (c : Call) : JS unit :=
  modify (fun w => set_log (log w ++ [c]) w).

(** A helper of the repository that returns or throws; [await] on a
    rejected promise throws in the same way. *)
Definition lift {A : Type} (r : Exn + A) : JS A :=
  match r with
  | inl e => throw e
  | inr a => ret a
  end.

Declare Scope js_scope.
Delimit Scope js_scope with js.
Notation "x <- m ;; k" := (bind m (fun x => k))
  (at level 61, m at next level, right associativity) : js_scope.
Notation "m ;; k" := (bind m (fun _ => k))
  (at level 61, right associativity) : js_scope.
Open Scope js_scope.

(** [xs.forEach(f)] *)
Fixpoint forEach {A : Type} (xs : list A) (f : A -> JS unit) : JS unit :=
  match xs with
  | [] => ret tt
  | x :: rest => f x ;; forEach rest f
  end.

(** ** JavaScript values *)

(** [Math.max(a, b)] on two numbers. *)
Definition Math_max (a b : Q) : Q := if Qle_bool b a then a else b.

(** A string in a condition: [undefined] and the empty string are falsy. *)
Definition truthy_string (o : option string) : option string :=
  match o with
  | Some EmptyString => None
  | Some s => Some s
  | None => None
  end.

(** A boolean in a condition. *)
Definition truthy_bool (o : option bool) : bool :=
  match o with
  | Some true => true
  | _ => false
  end.

(** A timer id in a condition: [null] and [0] are falsy. *)
Definition truthy_id (o : option Z) : option Z :=
  match o with
  | Some id => if Z.eqb id 0 then None else Some id
  | None => None
  end.

(** A [Set] of source nodes, in insertion order. *)
Definition Set_add (n : SourceNode) (s : list SourceNode) : list SourceNode :=
  if existsb (Nat.eqb n) s then s else s ++ [n].
Definition Set_delete (n : SourceNode) (s : list SourceNode) : list SourceNode :=
  filter (fun x => negb (Nat.eqb n x)) s.

Definition option_bind {A B : Type} (o : option A) (f : A -> option B) : option B :=
  match o with
  | Some a => f a
  | None => None
  end.

(** [message.serverContent?.modelTurn?.parts?.[0]?.inlineData?.data] *)
Definition base64Audio (message : LiveServerMessage) : option string :=
  option_bind (serverContent message) (fun sc =>
  option_bind (modelTurn sc) (fun mt =>
  option_bind (parts mt) (fun ps =>
  option_bind (nth_error ps 0) (fun p =>
  option_bind (inlineData p) (fun b => data b))))).

(** [message.serverContent?.interrupted] *)
Definition interruptedFlag (message : LiveServerMessage) : option bool :=
  option_bind (serverContent message) (fun sc => interrupted sc).

(** ** The message handler *)

(** What the environment answers during one run of the handler. *)
Record Env : Type := mkEnv {
  random : Q;                        (* Math.random() *)
  currentTime : Q;                   (* ctx.currentTime where playback is scheduled *)
  currentTimeAtInterrupt : Q;        (* outputAudioContextRef.current.currentTime *)
  stopThrows : SourceNode -> option Exn   (* what src.stop() does *)
}.

Section Handler.

(** [decodeAudio] and [decodeAudioData] of [utils/audioUtils]: each returns
    its result or fails with an error. *)
Variable decodeAudio : string -> Exn + list byte.
Variable decodeAudioData :
  list byte -> AudioContext -> Z -> Z -> Exn + AudioBuffer.

(** [ctx.createBufferSource()]: a node that did not exist before. *)
Definition createBufferSource (ctx : AudioContext) : JS SourceNode :=
  n <- read nextNode ;;
  modify (set_nextNode (S n)) ;;
  call (CreateBufferSource ctx n) ;;
  ret n.

(** The block under [// Schedule playback]. *)
Definition schedulePlayback (env : Env) (ctx : AudioContext)
    (audioBuffer : AudioBuffer) : JS unit :=
  modify (fun w =>
    set_nextStartTimeRef (Math_max (nextStartTimeRef w) (currentTime env)) w) ;;
  source <- createBufferSource ctx ;;
  call (SetBuffer source audioBuffer) ;;
  call (Connect source ctx) ;;
  call (AddEndedListener source) ;;
  startAt <- read nextStartTimeRef ;;
  call (SourceStart source startAt) ;;
  modify (fun w =>
    set_nextStartTimeRef (nextStartTimeRef w + duration audioBuffer)%Q w) ;;
  modify (fun w => set_audioSourcesRef (Set_add source (audioSourcesRef w)) w).

(** [// Simple visualization hook]: the level is set to a random value
    and a timer is armed that sets it back to 0. *)
Definition visualizationHook (env : Env) : JS unit :=
  modify (set_volumeLevel (random env * (1 # 2) + (1 # 2))%Q) ;;
  call (SetTimeout 200).

(** The block under [// Handle Audio Output].  The result says whether the
    handler has executed [return]. *)
Definition handleAudioOutput (env : Env) (message : LiveServerMessage) : JS bool :=
  match truthy_string (base64Audio message) with
  | None => ret false
  | Some base64 =>
      current <- read outputAudioContextRef ;;
      match current with
      | None => ret true
      | Some ctx =>
          visualizationHook env ;;
          audioBytes <- lift (decodeAudio base64) ;;
          audioBuffer <- lift (decodeAudioData audioBytes ctx 24000 1) ;;
          schedulePlayback env ctx audioBuffer ;;
          ret false
      end
  end.

(** [src.stop()] *)
Definition sourceStop (env : Env) (src : SourceNode) : JS unit :=
  call (SourceStop src) ;;
  match stopThrows env src with
  | Some e => throw e
  | None => ret tt
  end.

(** [sources.forEach(src => { try { src.stop(); } catch(e) {} })] *)
Definition stopAll (env : Env) (sources : list SourceNode) : JS unit :=
  forEach sources (fun src => tryCatch (sourceStop env src) (fun _ => ret tt)).

(** The block under [// Handle Interruptions]. *)
Definition handleInterruptions (env : Env) (message : LiveServerMessage) : JS unit :=
  if truthy_bool (interruptedFlag message) then
    sources <- read audioSourcesRef ;;
    stopAll env sources ;;
    modify (set_audioSourcesRef []) ;;
    current <- read outputAudioContextRef ;;
    match current with
    | Some _ => modify (set_nextStartTimeRef (currentTimeAtInterrupt env))
    | None => ret tt
    end
  else ret tt.

Definition onmessage (env : Env) (message : LiveServerMessage) : JS unit :=
  returned <- handleAudioOutput env message ;;
  if (returned : bool) then ret tt else handleInterruptions env message.

End Handler.

(** ** The ['ended'] listener *)

Definition isListener (n : SourceNode) (c : Call) : bool :=
  match c with
  | AddEndedListener m => Nat.eqb n m
  | _ => false
  end.

(** The body of the listener registered on [source]. *)
Definition onended (source : SourceNode) : JS unit :=
  modify (fun w => set_audioSourcesRef (Set_delete source (audioSourcesRef w)) w).

(** The browser delivers ['ended'] to [source]: the listener runs if one
    was registered. *)
Definition deliverEnded (source : SourceNode) : JS unit :=
  listening <- read (fun w => existsb (isListener source) (log w)) ;;
  if (listening : bool) then call (EndedDelivered source) ;; onended source
  else ret tt.

(** ** Starting and stopping the mirror *)

Definition set_activeSessionRef (v : option Session) (w : World) : World :=
  mkWorld (streamRef w) (inputAudioContextRef w) (outputAudioContextRef w)
    (nextStartTimeRef w) (audioSourcesRef w) (sessionPromiseRef w)
    v (videoIntervalRef w) (appState w) (volumeLevel w)
    (nextNode w) (log w).

(** What the environment answers during one run of [startMirror]. *)
Record StartEnv : Type := mkStartEnv {
  getUserMedia : Exn + MediaStream;
  videoRefCurrent : bool;            (* is videoRef.current set *)
  videoPlay : Exn + unit;            (* await videoRef.current.play() *)
  newInputContext : AudioContext;    (* new AudioContext({ sampleRate: 16000 }) *)
  newOutputContext : AudioContext;   (* new AudioContext({ sampleRate: 24000 }) *)
  outputCurrentTime : Q;             (* outputCtx.currentTime *)
  liveConnect : Session;             (* the promise ai.live.connect returns *)
  setIntervalId : Z                  (* what window.setInterval returns *)
}.

Definition startVideoStreaming (env : StartEnv) : JS unit :=
  call (SetInterval 500 (setIntervalId env)) ;;
  modify (set_videoIntervalRef (Some (setIntervalId env))).

Definition startMirror (env : StartEnv) : JS unit :=
  tryCatch
    (modify (set_appState CONNECTING) ;;
     stream <- lift (getUserMedia env) ;;
     modify (set_streamRef (Some stream)) ;;
     (if videoRefCurrent env then lift (videoPlay env) else ret tt) ;;
     modify (set_inputAudioContextRef (Some (newInputContext env))) ;;
     modify (set_outputAudioContextRef (Some (newOutputContext env))) ;;
     modify (set_nextStartTimeRef (outputCurrentTime env)) ;;
     call (LiveConnect (liveConnect env)) ;;
     modify (set_sessionPromiseRef (Some (liveConnect env))) ;;
     startVideoStreaming env)
    (fun _ => modify (set_appState ERROR)).

(** [sessionPromise.then(sess => { activeSessionRef.current = sess; })] *)
Definition sessionResolved (sess : Session) : JS unit :=
  modify (set_activeSessionRef (Some sess)).

(** [scriptProcessor.onaudioprocess]: the microphone path, the one place
    next to the video loop where the handler talks to the session. *)
Definition onaudioprocess (isMuted : bool) (session : Session) : JS unit :=
  if isMuted then ret tt else call (SessionSendRealtimeInput session).

Definition ifSome {A : Type} (o : option A) (f : A -> JS unit) : JS unit :=
  match o with
  | Some a => f a
  | None => ret tt
  end.

Definition stopMirror : JS unit :=
  (* 1. Close Session: the body of the conditional holds comments only *)
  session <- read activeSessionRef ;;
  ifSome session (fun _ => ret tt) ;;
  (* 2. Stop User Media *)
  stream <- read streamRef ;;
  ifSome stream (fun s =>
    forEach (getTracks s) (fun track => call (TrackStop track)) ;;
    modify (set_streamRef None)) ;;
  (* 3. Stop Audio Contexts *)
  inputCtx <- read inputAudioContextRef ;;
  ifSome inputCtx (fun c => call (ContextClose c)) ;;
  outputCtx <- read outputAudioContextRef ;;
  ifSome outputCtx (fun c => call (ContextClose c)) ;;
  (* 4. Clear Loop *)
  interval <- read videoIntervalRef ;;
  ifSome (truthy_id interval) (fun id => call (ClearInterval id)) ;;
  modify (set_appState IDLE) ;;
  modify (set_volumeLevel 0).

(** ** Runs of the component *)

Inductive Op : Type :=
| StartMirror (env : StartEnv)
| SessionResolved (sess : Session)
| OnMessage (env : Env) (message : LiveServerMessage)
| OnEnded (source : SourceNode)
| StopMirror.

Section Runs.

Variable decodeAudio : string -> Exn + list byte.
Variable decodeAudioData :
  list byte -> AudioContext -> Z -> Z -> Exn + AudioBuffer.

Definition perform (op : Op) : JS unit :=
  match op with
  | StartMirror env => startMirror env
  | SessionResolved sess => sessionResolved sess
  | OnMessage env message => onmessage decodeAudio decodeAudioData env message
  | OnEnded source => deliverEnded source
  | StopMirror => stopMirror
  end.

(** The world after an operation, whether it ended normally or threw. *)
Definition step (op : Op) (w : World) : World := snd (perform op w).

Fixpoint run (ops : list Op) (w : World) : World :=
  match ops with
  | [] => w
  | op :: rest => run rest (step op w)
  end.

End Runs.

(** ** Reading the log *)

(** The sources started, with their start times, in the order of the calls. *)
Fixpoint startsOf (l : list Call) : list (SourceNode * Q) :=
  match l with
  | [] => []
  | SourceStart n t :: rest => (n, t) :: startsOf rest
  | _ :: rest => startsOf rest
  end.

Definition startTimes (l : list Call) : list Q := map snd (startsOf l).

(** The start time the scheduler picks for a chunk that arrives in [w]. *)
Definition startAt (env : Env) (w : World) : Q :=
  Math_max (nextStartTimeRef w) (currentTime env).

(** The start times of the sources started between [w] and [w']. *)
Definition newStarts (w w' : World) : list Q :=
  skipn (List.length (startTimes (log w))) (startTimes (log w')).

(** ** Scheduling with the arithmetic of the platform *)

Section Arithmetic.

(** The sum [a + b] of two numbers and the [duration] of a buffer, as the
    platform computes them. *)
Variable plus : Q -> Q -> Q.
Variable durationOf : AudioBuffer -> Q.

(** The block under [// Schedule playback], with that sum and that
    duration. *)
Definition schedulePlaybackWith (env : Env) (ctx : AudioContext)
    (audioBuffer : AudioBuffer) : JS unit :=
  modify (fun w =>
    set_nextStartTimeRef (Math_max (nextStartTimeRef w) (currentTime env)) w) ;;
  source <- createBufferSource ctx ;;
  call (SetBuffer source audioBuffer) ;;
  call (Connect source ctx) ;;
  call (AddEndedListener source) ;;
  startTime <- read nextStartTimeRef ;;
  call (SourceStart source startTime) ;;
  modify (fun w =>
    set_nextStartTimeRef (plus (nextStartTimeRef w) (durationOf audioBuffer)) w) ;;
  modify (fun w => set_audioSourcesRef (Set_add source (audioSourcesRef w)) w).

(** A sequence of decoded chunks, scheduled one after the other. *)
Fixpoint scheduleAllWith (ctx : AudioContext) (chunks : list (Env * AudioBuffer))
    : JS unit :=
  match chunks with
  | [] => ret tt
  | (env, audioBuffer) :: rest =>
      schedulePlaybackWith env ctx audioBuffer ;; scheduleAllWith ctx rest
  end.

(** Every chunk of the sequence arrives no later than the cursor it finds. *)
Fixpoint arriveInTimeWith (ctx : AudioContext) (chunks : list (Env * AudioBuffer))
    (w : World) : Prop :=
  match chunks with
  | [] => True
  | (env, audioBuffer) :: rest =>
      currentTime env <= nextStartTimeRef w /\
      arriveInTimeWith ctx rest (snd (schedulePlaybackWith env ctx audioBuffer w))
  end.

(** The calls that put [buffers] on the sources [n], [n+1], ... and start
    them one after the other, the first at [cursor] and each next one where
    the one before it ends. *)
Fixpoint gaplessCalls (ctx : AudioContext) (n : SourceNode) (cursor : Q)
    (buffers : list AudioBuffer) : list Call :=
  match buffers with
  | [] => []
  | b :: rest =>
      [CreateBufferSource ctx n; SetBuffer n b; Connect n ctx;
       AddEndedListener n; SourceStart n cursor]
      ++ gaplessCalls ctx (S n) (plus cursor (durationOf b)) rest
  end.

(** The start times a sequence of chunks gets from [cursor] on, whenever
    the chunks arrive. *)
Fixpoint startsFromWith (cursor : Q) (chunks : list (Env * AudioBuffer)) : list Q :=
  match chunks with
  | [] => []
  | (env, audioBuffer) :: rest =>
      Math_max cursor (currentTime env)
      :: startsFromWith
           (plus (Math_max cursor (currentTime env)) (durationOf audioBuffer)) rest
  end.

(** The durations of [buffers] added to [cursor], one after the other. *)
Definition addDurations (cursor : Q) (buffers : list AudioBuffer) : Q :=
  fold_left (fun c b => plus c (durationOf b)) buffers cursor.

End Arithmetic.

(** ** The arithmetic of binary64 *)

(** A finite binary64 value as the rational it is. *)
Definition Q_of_binary64 (x : SpecFloat.spec_float) : Q :=
  match x with
  | SpecFloat.S754_finite s m e =>
      let z := if s then Zneg m else Zpos m in
      match e with
      | Zneg k => z # (2 ^ k)
      | _ => (z * 2 ^ e) # 1
      end
  | _ => 0
  end.

(** The binary64 value nearest to an integer, and to a rational. *)
Definition binary64_of_Z (z : Z) : SpecFloat.spec_float :=
  SpecFloat.binary_normalize 53 1024 z 0 false.

Definition binary64_of_Q (q : Q) : SpecFloat.spec_float :=
  SpecFloat.SFdiv 53 1024 (binary64_of_Z (Qnum q)) (binary64_of_Z (Zpos (Qden q))).

(** [a + b] on two binary64 numbers, rounded to nearest even. *)
Definition plus64 (a b : Q) : Q :=
  Q_of_binary64 (SpecFloat.SFadd 53 1024 (binary64_of_Q a) (binary64_of_Q b)).

(** [length / sampleRate] in binary64. *)
Definition duration64 (b : AudioBuffer) : Q :=
  Q_of_binary64
    (SpecFloat.SFdiv 53 1024 (binary64_of_Z (Z.of_N (frameCount b)))
       (binary64_of_Z (Zpos (sampleRate b)))).

(** The calls [stopMirror] makes in [w], in order. *)
Definition teardownCalls (w : World) : list Call :=
  match streamRef w with
  | Some stream => map TrackStop (getTracks stream)
  | None => []
  end
  ++ match inputAudioContextRef w with
     | Some c => [ContextClose c]
     | None => []
     end
  ++ match outputAudioContextRef w with
     | Some c => [ContextClose c]
     | None => []
     end
  ++ match truthy_id (videoIntervalRef w) with
     | Some id => [ClearInterval id]
     | None => []
     end.

(** A call on the remote session object. *)
Definition isSessionCall (c : Call) : bool :=
  match c with
  | SessionSendRealtimeInput _ | SessionClose _ => true
  | _ => false
  end.

(** A message carries inline audio data when a part of its model turn has
    inline data that is not empty. *)
Definition partAudio (p : Part) : option string :=
  truthy_string (option_bind (inlineData p) (fun b => data b)).

Definition hasInlineAudio (message : LiveServerMessage) : bool :=
  match option_bind (serverContent message) (fun sc =>
        option_bind (modelTurn sc) (fun mt => parts mt)) with
  | Some ps =>
      existsb (fun p => match partAudio p with Some _ => true | None => false end) ps
  | None => false
  end.

(** The operations on which the cursor is reset, and the clock time each
    of them reads. *)
Definition resets (op : Op) : bool :=
  match op with
  | StartMirror _ => true
  | OnMessage _ message => truthy_bool (interruptedFlag message)
  | _ => false
  end.

Definition resetTime (op : Op) : Q :=
  match op with
  | StartMirror env => outputCurrentTime env
  | OnMessage env _ => currentTimeAtInterrupt env
  | _ => 0
  end.

(** [startMirror] gets as far as creating the audio contexts. *)
Definition reachesContexts (env : StartEnv) : bool :=
  match getUserMedia env with
  | inl _ => false
  | inr _ =>
      if videoRefCurrent env then
        match videoPlay env with
        | inl _ => false
        | inr _ => true
        end
      else true
  end.

(** ** The life of a source, read from the log *)

(** The source a call is about. *)
Definition sourceOf (c : Call) : option SourceNode :=
  match c with
  | CreateBufferSource _ n | SetBuffer n _ | Connect n _ | AddEndedListener n
  | SourceStart n _ | SourceStop n | EndedDelivered n => Some n
  | _ => None
  end.

(** [start()] was called on the source. *)
Definition started (n : SourceNode) (w : World) : Prop :=
  exists t, In (SourceStart n t) (log w).

(** [stop()] was called on the source. *)
Definition stopped (n : SourceNode) (w : World) : Prop :=
  In (SourceStop n) (log w).

(** The completion callback of the source has run. *)
Definition completed (n : SourceNode) (w : World) : Prop :=
  In (EndedDelivered n) (log w).

(** The source has played its buffer to the end by clock time [now]: it was
    started at some [t] with a buffer that lasts no longer than [now - t]. *)
Definition playedOut (now : Q) (n : SourceNode) (l : list Call) : bool :=
  existsb (fun s =>
    Nat.eqb n (fst s) &&
    existsb (fun c =>
      match c with
      | SetBuffer m b => Nat.eqb n m && Qle_bool (snd s + duration b) now
      | _ => false
      end) l) (startsOf l).

(** What holds of the set of active sources in every world the component
    can reach. *)
Definition wellFormed (w : World) : Prop :=
  (forall c n, In c (log w) -> sourceOf c = Some n -> (n < nextNode w)%nat) /\
  (forall n, In n (audioSourcesRef w) ->
     started n w /\ In (AddEndedListener n) (log w) /\
     ~ stopped n w /\ ~ completed n w).

(** ** Sample data *)

Definition inputCtx0 : AudioContext := mkContext 0 16000.
Definition outputCtx0 : AudioContext := mkContext 1 24000.

(** One second and half a second of mono audio at 24 kHz. *)
Definition chunkA : AudioBuffer := mkBuffer 24000 24000 1.
Definition chunkB : AudioBuffer := mkBuffer 24000 12000 1.

(** A run of the handler at clock time [now] in which no [stop()] throws. *)
Definition quietAt (now : Q) : Env := mkEnv 0 now now (fun _ => None).

(** A run of the handler at clock time [now] in which every [stop()] throws. *)
Definition hostileAt (now : Q) : Env :=
  mkEnv 0 now now (fun _ => Some "InvalidStateError"%string).

Definition startEnv0 : StartEnv :=
  mkStartEnv (inr (mkStream [0%nat; 1%nat])) true (inr tt)
    inputCtx0 outputCtx0 0 7%nat 42.

(** The mirror after a successful [startMirror]. *)
Definition started0 : World := snd (startMirror startEnv0 mounted).

Definition twoChunks : list (Env * AudioBuffer) :=
  [(quietAt 0, chunkA); (quietAt (1 # 5), chunkB)].

(** A tenth and two tenths of a second of mono audio at 24 kHz, and three
    chunks that arrive together at t=0. *)
Definition chunkTenth : AudioBuffer := mkBuffer 24000 2400 1.
Definition chunkFifth : AudioBuffer := mkBuffer 24000 4800 1.

Definition tenths : list (Env * AudioBuffer) :=
  [(quietAt 0, chunkTenth); (quietAt 0, chunkFifth); (quietAt 0, chunkTenth)].

Definition interruptMessage : LiveServerMessage :=
  mkMessage (Some (mkServerContent None (Some true))).

(** The mirror with chunk A scheduled at t=0. *)
Definition playingA : World :=
  snd (schedulePlayback (quietAt 0) outputCtx0 chunkA started0).

(** Sample instances of the two helpers of [utils/audioUtils], to run the
    handler on concrete messages: the first rejects the payload ["!"] and
    otherwise returns the bytes of its argument, the second reads 16-bit
    samples and rejects an odd number of bytes. *)
Definition decodeAudio_sample (base64 : string) : Exn + list byte :=
  if String.eqb base64 "!" then inl "InvalidCharacterError"%string
  else inr (list_byte_of_string base64).

Definition decodeAudioData_sample (bytes : list byte) (ctx : AudioContext)
    (rate channels : Z) : Exn + AudioBuffer :=
  if Nat.odd (List.length bytes) then inl "RangeError"%string
  else inr (mkBuffer (Z.to_pos rate)
              (N.of_nat (List.length bytes / 2)) (Z.to_pos channels)).

Definition audioMessage (payload : string) (flag : option bool) : LiveServerMessage :=
  mkMessage (Some (mkServerContent
    (Some (mkContent (Some [mkPart (Some (mkBlob (Some payload)))])))
    flag)).

(** The mirror started, its session resolved, and stopped again. *)
Definition stopped0 : World :=
  snd (stopMirror (snd (sessionResolved 7%nat started0))).

(** A message with a turn of text only. *)
Definition textMessage : LiveServerMessage :=
  mkMessage (Some (mkServerContent
    (Some (mkContent (Some [mkPart None]))) (Some false))).

(** Two chunks are queued and the first one ends. *)
Definition queueing : list Op :=
  [OnMessage (quietAt 0) (audioMessage "AAAA" None);
   OnMessage (quietAt (1 # 100000)) (audioMessage "AAAAAA" (Some false));
   OnEnded 0%nat].

(** A chunk of 2 frames is scheduled at t=0; a text message is handled at
    t=0.0001, before the ['ended'] event of the chunk is delivered. *)
Definition lateCallback : list Op :=
  [StartMirror startEnv0;
   OnMessage (quietAt 0) (audioMessage "AAAA" None);
   OnMessage (quietAt (1 # 10000)) textMessage].

(** ** The other callbacks of the session *)

(** [onerror]: [setAppState(AppState.ERROR)], then [stopMirror()].  What it
    writes to the console is not recorded. *)
Definition onerror : JS unit :=
  modify (set_appState ERROR) ;;
  stopMirror.

(** A function of the component sees the [appState] of the render that
    created it.  [onclose], created in a render whose state was
    [rendered]: [if (appState !== AppState.IDLE) stopMirror();] *)
Definition onclose (rendered : AppState) : JS unit :=
  match rendered with
  | IDLE => ret tt
  | _ => stopMirror
  end.

(** What the environment answers during one tick of the video loop. *)
Record FrameEnv : Type := mkFrameEnv {
  videoCurrent : bool;               (* is videoRef.current set *)
  canvasCurrent : bool;              (* is canvasRef.current set *)
  context2d : bool;                  (* does canvas.getContext('2d') return a context *)
  frameBlob : bool;                  (* does canvas.toBlob hand over a blob *)
  blobToBase64 : Exn + string        (* await blobToBase64(blob) *)
}.

(** The callback that [startVideoStreaming] gives to [setInterval], created
    in a render whose state was [rendered], together with the callback it
    gives to [canvas.toBlob].  Drawing on the hidden canvas is not
    recorded; the frame goes to the session the promise resolves to. *)
Definition videoFrame (rendered : AppState) (env : FrameEnv) : JS unit :=
  sessionPromise <- read sessionPromiseRef ;;
  match sessionPromise with
  | Some session =>
      if videoCurrent env && canvasCurrent env
         && match rendered with IDLE => false | _ => true end
      then
        if context2d env then
          if frameBlob env then
            _ <- lift (blobToBase64 env) ;;
            call (SessionSendRealtimeInput session)
          else ret tt
        else ret tt
      else ret tt
  | None => ret tt
  end.

(** The button whose [onClick] is [startMirror] is part of a render exactly
    when [appState === AppState.IDLE]. *)
Definition awakenButtonShown (rendered : AppState) : bool :=
  match rendered with
  | IDLE => true
  | _ => false
  end.

(** A message with one model turn made of [ps]. *)
Definition turnMessage (ps : list Part) (flag : option bool) : LiveServerMessage :=
  mkMessage (Some (mkServerContent (Some (mkContent (Some ps))) flag)).

(** The chunk of a message decodes, if the message has one and an output
    context is in place. *)
Definition decodes (dA : string -> Exn + list byte)
    (dAD : list byte -> AudioContext -> Z -> Z -> Exn + AudioBuffer)
    (message : LiveServerMessage) (w : World) : Prop :=
  match truthy_string (base64Audio message), outputAudioContextRef w with
  | Some base64, Some ctx =>
      exists bytes buf,
        dA base64 = inr bytes /\ dAD bytes ctx 24000%Z 1%Z = inr buf
  | _, _ => True
  end.

(** ** More readings of the log *)

(** The sources [stop()] was called on, in the order of the calls. *)
Fixpoint stopsOf (l : list Call) : list SourceNode :=
  match l with
  | [] => []
  | SourceStop n :: rest => n :: stopsOf rest
  | _ :: rest => stopsOf rest
  end.

(** The smallest changes an operation is made of, as far as the sources
    are concerned: calls that are about no source, one chunk scheduled, the
    set stopped and cleared, one completion callback run. *)
Inductive atom (w w' : World) : Prop :=
| atom_frame (l : list Call) :
    nextNode w' = nextNode w ->
    audioSourcesRef w' = audioSourcesRef w ->
    log w' = log w ++ l ->
    (forall c, In c l -> sourceOf c = None) ->
    atom w w'
| atom_schedule (env : Env) (ctx : AudioContext) (buf : AudioBuffer) :
    nextNode w' = S (nextNode w) ->
    audioSourcesRef w' = Set_add (nextNode w) (audioSourcesRef w) ->
    log w' = log w ++ [CreateBufferSource ctx (nextNode w);
                       SetBuffer (nextNode w) buf;
                       Connect (nextNode w) ctx;
                       AddEndedListener (nextNode w);
                       SourceStart (nextNode w) (startAt env w)] ->
    atom w w'
| atom_interrupt :
    nextNode w' = nextNode w ->
    audioSourcesRef w' = [] ->
    log w' = log w ++ map SourceStop (audioSourcesRef w) ->
    atom w w'
| atom_ended (k : SourceNode) :
    In (AddEndedListener k) (log w) ->
    nextNode w' = nextNode w ->
    audioSourcesRef w' = Set_delete k (audioSourcesRef w) ->
    log w' = log w ++ [EndedDelivered k] ->
    atom w w'.

(** A chain of such changes. *)
Inductive atoms : World -> World -> Prop :=
| atoms_nil (w : World) : atoms w w
| atoms_cons (w w1 w2 : World) : atom w w1 -> atoms w1 w2 -> atoms w w2.

(** What the log and the set of every reachable world satisfy, beyond
    [wellFormed]. *)
Definition orderly (w : World) : Prop :=
  NoDup (audioSourcesRef w) /\
  NoDup (map fst (startsOf (log w))) /\
  NoDup (stopsOf (log w)) /\
  (forall pre post n,
     log w = pre ++ SourceStop n :: post ->
     exists t, In (SourceStart n t) pre) /\
  (forall n, started n w ->
     In n (audioSourcesRef w) \/ stopped n w \/ completed n w).

(** ** More sample data *)

(** Three chunks, the third one arriving late. *)
Definition threeChunks : list (Env * AudioBuffer) :=
  [(quietAt 0, chunkA); (quietAt (1 # 5), chunkB); (quietAt 2, chunkB)].

(** A turn whose first part is text and whose second part is audio. *)
Definition audioInSecondPart : LiveServerMessage :=
  turnMessage [mkPart None; mkPart (Some (mkBlob (Some "AAAA"%string)))] None.

(** A start in which [play()] rejects. *)
Definition startEnvNoPlay : StartEnv :=
  mkStartEnv (inr (mkStream [0%nat; 1%nat])) true (inl "NotAllowedError"%string)
    inputCtx0 outputCtx0 0 7%nat 42.

(** A tick of the video loop in which everything is in place. *)
Definition frameEnv0 : FrameEnv :=
  mkFrameEnv true true true true (inr "frame"%string).

(** * Proofs *)

(** ** [Math.max] *)

Lemma Math_max_early (cursor now : Q) : now <= cursor -> Math_max cursor now = cursor.
Proof.
  intros H. unfold Math_max.
  destruct (Qle_bool now cursor) eqn:E; [reflexivity|].
  apply Qle_bool_iff in H. congruence.
Qed.

Lemma Math_max_late (cursor now : Q) : cursor < now -> Math_max cursor now = now.
Proof.
  intros H. unfold Math_max.
  destruct (Qle_bool now cursor) eqn:E; [|reflexivity].
  apply Qle_bool_iff in E. exfalso. exact (Qlt_not_le _ _ H E).
Qed.

Lemma Math_max_ge_l (cursor now : Q) : cursor <= Math_max cursor now.
Proof.
  unfold Math_max. destruct (Qle_bool now cursor) eqn:E.
  - apply Qle_refl.
  - destruct (Qlt_le_dec cursor now) as [H|H].
    + apply Qlt_le_weak, H.
    + apply Qle_bool_iff in H. congruence.
Qed.

Lemma Math_max_ge_r (cursor now : Q) : now <= Math_max cursor now.
Proof.
  unfold Math_max. destruct (Qle_bool now cursor) eqn:E.
  - apply Qle_bool_iff, E.
  - apply Qle_refl.
Qed.

Lemma duration_nonneg (b : AudioBuffer) : 0 <= duration b.
Proof.
  unfold duration, Qle. simpl. lia.
Qed.

(** ** What one scheduled chunk does *)

Lemma schedulePlayback_normal env ctx buf w :
  fst (schedulePlayback env ctx buf w) = Normal tt.
Proof. reflexivity. Qed.

Lemma schedulePlayback_cursor env ctx buf w :
  nextStartTimeRef (snd (schedulePlayback env ctx buf w))
  = startAt env w + duration buf.
Proof. reflexivity. Qed.

Lemma schedulePlayback_sources env ctx buf w :
  audioSourcesRef (snd (schedulePlayback env ctx buf w))
  = Set_add (nextNode w) (audioSourcesRef w).
Proof. reflexivity. Qed.

Lemma schedulePlayback_nextNode env ctx buf w :
  nextNode (snd (schedulePlayback env ctx buf w)) = S (nextNode w).
Proof. reflexivity. Qed.

Lemma schedulePlayback_log env ctx buf w :
  log (snd (schedulePlayback env ctx buf w))
  = log w ++ [CreateBufferSource ctx (nextNode w);
              SetBuffer (nextNode w) buf;
              Connect (nextNode w) ctx;
              AddEndedListener (nextNode w);
              SourceStart (nextNode w) (startAt env w)].
Proof.
  cbn. repeat rewrite <- app_assoc. reflexivity.
Qed.

Lemma schedulePlayback_context env ctx buf w :
  outputAudioContextRef (snd (schedulePlayback env ctx buf w))
  = outputAudioContextRef w.
Proof. reflexivity. Qed.

Lemma startsOf_app (l1 l2 : list Call) :
  startsOf (l1 ++ l2) = startsOf l1 ++ startsOf l2.
Proof.
  induction l1 as [|c l1 IH]; [reflexivity|].
  destruct c; simpl; rewrite ?IH; reflexivity.
Qed.

Lemma startTimes_app (l1 l2 : list Call) :
  startTimes (l1 ++ l2) = startTimes l1 ++ startTimes l2.
Proof.
  unfold startTimes. rewrite startsOf_app, map_app. reflexivity.
Qed.

Lemma schedulePlayback_startTimes env ctx buf w :
  startTimes (log (snd (schedulePlayback env ctx buf w)))
  = startTimes (log w) ++ [startAt env w].
Proof.
  rewrite schedulePlayback_log, startTimes_app. reflexivity.
Qed.

(** ** Gapless scheduling *)

Lemma newStarts_app (w w' : World) (new : list Q) :
  startTimes (log w') = startTimes (log w) ++ new -> newStarts w w' = new.
Proof.
  intros H. unfold newStarts. rewrite H, skipn_app, skipn_all, Nat.sub_diag.
  reflexivity.
Qed.

Lemma schedulePlayback_exact env ctx buf :
  schedulePlayback env ctx buf = schedulePlaybackWith Qplus duration env ctx buf.
Proof. reflexivity. Qed.

Lemma schedulePlaybackWith_normal plus durationOf env ctx buf w :
  fst (schedulePlaybackWith plus durationOf env ctx buf w) = Normal tt.
Proof. reflexivity. Qed.

Lemma schedulePlaybackWith_cursor plus durationOf env ctx buf w :
  nextStartTimeRef (snd (schedulePlaybackWith plus durationOf env ctx buf w))
  = plus (startAt env w) (durationOf buf).
Proof. reflexivity. Qed.

Lemma schedulePlaybackWith_sources plus durationOf env ctx buf w :
  audioSourcesRef (snd (schedulePlaybackWith plus durationOf env ctx buf w))
  = Set_add (nextNode w) (audioSourcesRef w).
Proof. reflexivity. Qed.

Lemma schedulePlaybackWith_nextNode plus durationOf env ctx buf w :
  nextNode (snd (schedulePlaybackWith plus durationOf env ctx buf w))
  = S (nextNode w).
Proof. reflexivity. Qed.

Lemma schedulePlaybackWith_log plus durationOf env ctx buf w :
  log (snd (schedulePlaybackWith plus durationOf env ctx buf w))
  = log w ++ [CreateBufferSource ctx (nextNode w);
              SetBuffer (nextNode w) buf;
              Connect (nextNode w) ctx;
              AddEndedListener (nextNode w);
              SourceStart (nextNode w) (startAt env w)].
Proof.
  cbn. repeat rewrite <- app_assoc. reflexivity.
Qed.

Lemma scheduleAllWith_cons plus durationOf ctx env buf rest w :
  scheduleAllWith plus durationOf ctx ((env, buf) :: rest) w
  = scheduleAllWith plus durationOf ctx rest
      (snd (schedulePlaybackWith plus durationOf env ctx buf w)).
Proof. reflexivity. Qed.

Lemma scheduleAllWith_normal plus durationOf ctx chunks :
  forall w, fst (scheduleAllWith plus durationOf ctx chunks w) = Normal tt.
Proof.
  induction chunks as [|[env buf] rest IH]; intros w; [reflexivity|].
  rewrite scheduleAllWith_cons. apply IH.
Qed.

Lemma scheduleAllWith_log plus durationOf ctx chunks :
  forall w,
    arriveInTimeWith plus durationOf ctx chunks w ->
    log (snd (scheduleAllWith plus durationOf ctx chunks w))
    = log w ++ gaplessCalls plus durationOf ctx (nextNode w)
                 (nextStartTimeRef w) (map snd chunks).
Proof.
  induction chunks as [|[env buf] rest IH]; intros w H.
  - simpl. rewrite app_nil_r. reflexivity.
  - destruct H as [Hnow Hrest].
    rewrite scheduleAllWith_cons, (IH _ Hrest).
    rewrite schedulePlaybackWith_log, schedulePlaybackWith_cursor,
      schedulePlaybackWith_nextNode.
    unfold startAt. rewrite (Math_max_early Hnow).
    rewrite <- app_assoc. reflexivity.
Qed.

Lemma gaplessCalls_startTimes plus durationOf ctx n cursor b rest :
  startTimes (gaplessCalls plus durationOf ctx n cursor (b :: rest))
  = cursor :: startTimes (gaplessCalls plus durationOf ctx (S n)
                            (plus cursor (durationOf b)) rest).
Proof. reflexivity. Qed.

Lemma gaplessCalls_length plus durationOf ctx (buffers : list AudioBuffer) :
  forall n cursor,
    List.length (startTimes (gaplessCalls plus durationOf ctx n cursor buffers))
    = List.length buffers.
Proof.
  induction buffers as [|b rest IH]; intros n cursor; [reflexivity|].
  rewrite gaplessCalls_startTimes. simpl. rewrite IH. reflexivity.
Qed.

Lemma gaplessCalls_next plus durationOf ctx (buffers : list AudioBuffer) :
  forall n cursor i s b,
    nth_error (startTimes (gaplessCalls plus durationOf ctx n cursor buffers)) i
      = Some s ->
    nth_error buffers i = Some b ->
    (S i < List.length buffers)%nat ->
    nth_error (startTimes (gaplessCalls plus durationOf ctx n cursor buffers)) (S i)
      = Some (plus s (durationOf b)).
Proof.
  induction buffers as [|b0 rest IH]; intros n cursor i s b Hs Hb Hlen.
  - simpl in Hlen. lia.
  - rewrite gaplessCalls_startTimes in *. destruct i as [|i].
    + simpl in Hs, Hb. injection Hs as <-. injection Hb as <-.
      destruct rest as [|b1 rest]; [simpl in Hlen; lia|]. reflexivity.
    + simpl in Hs, Hb. simpl in Hlen.
      change (nth_error (startTimes (gaplessCalls plus durationOf ctx (S n)
                                       (plus cursor (durationOf b0)) rest)) (S i)
              = Some (plus s (durationOf b))).
      apply IH; [assumption|assumption|lia].
Qed.

(** C1.  Each scheduled chunk gets a new source that is given the chunk's
    buffer, connected, and started at [max(cursor, now)], and moves the
    cursor to that start time plus the duration of the buffer, sum and
    duration being those the platform computes.  When every chunk of a
    sequence arrives no later than the cursor it finds, the calls made
    are, chunk after chunk in the order of arrival, those that start the
    chunk's buffer on a source of its own, the first at the cursor and
    each next one at the start time of its predecessor plus the
    predecessor's duration; and where adding a duration never gives less,
    no chunk starts before the one that arrived before it. *)
Theorem C1_gapless_scheduling
    (plus : Q -> Q -> Q) (durationOf : AudioBuffer -> Q)
    (ctx : AudioContext) (chunks : list (Env * AudioBuffer)) (w : World) :
  arriveInTimeWith plus durationOf ctx chunks w ->
  (forall env buf w0,
     let w1 := snd (schedulePlaybackWith plus durationOf env ctx buf w0) in
     log w1
       = log w0
         ++ [CreateBufferSource ctx (nextNode w0);
             SetBuffer (nextNode w0) buf;
             Connect (nextNode w0) ctx;
             AddEndedListener (nextNode w0);
             SourceStart (nextNode w0)
               (Math_max (nextStartTimeRef w0) (currentTime env))] /\
     nextStartTimeRef w1
       = plus (Math_max (nextStartTimeRef w0) (currentTime env)) (durationOf buf) /\
     audioSourcesRef w1 = Set_add (nextNode w0) (audioSourcesRef w0)) /\
  let w' := snd (scheduleAllWith plus durationOf ctx chunks w) in
  fst (scheduleAllWith plus durationOf ctx chunks w) = Normal tt /\
  log w' = log w ++ gaplessCalls plus durationOf ctx (nextNode w)
                      (nextStartTimeRef w) (map snd chunks) /\
  List.length (newStarts w w') = List.length chunks /\
  (forall env buf,
     nth_error chunks 0 = Some (env, buf) ->
     nth_error (newStarts w w') 0 = Some (nextStartTimeRef w)) /\
  (forall i s env buf,
     nth_error (newStarts w w') i = Some s ->
     nth_error chunks i = Some (env, buf) ->
     (S i < List.length chunks)%nat ->
     nth_error (newStarts w w') (S i) = Some (plus s (durationOf buf))) /\
  ((forall a b, a <= plus a (durationOf b)) ->
   forall i s s',
     nth_error (newStarts w w') i = Some s ->
     nth_error (newStarts w w') (S i) = Some s' ->
     s <= s').
Proof.
  intros H. split.
  - intros env buf w0. cbv zeta. split; [|split].
    + apply schedulePlaybackWith_log.
    + apply schedulePlaybackWith_cursor.
    + apply schedulePlaybackWith_sources.
  - cbv zeta.
    pose proof (scheduleAllWith_log plus durationOf ctx chunks w H) as L.
    assert (E : newStarts w (snd (scheduleAllWith plus durationOf ctx chunks w))
                = startTimes (gaplessCalls plus durationOf ctx (nextNode w)
                                (nextStartTimeRef w) (map snd chunks))).
    { apply newStarts_app. rewrite L, startTimes_app. reflexivity. }
    split; [apply scheduleAllWith_normal|]. split; [exact L|]. rewrite E.
    split; [|split; [|split]].
    + rewrite gaplessCalls_length. apply length_map.
    + intros env buf Hc. destruct chunks as [|[env0 buf0] rest];
        [discriminate Hc|reflexivity].
    + intros i s env buf Hs Hc Hlen.
      apply gaplessCalls_next; [exact Hs| |rewrite length_map; exact Hlen].
      apply (map_nth_error snd) in Hc. exact Hc.
    + intros M i s s' Hs Hn.
      assert (Hi : (i < List.length (map snd chunks))%nat).
      { rewrite <- (gaplessCalls_length plus durationOf ctx (map snd chunks)
                      (nextNode w) (nextStartTimeRef w)).
        apply nth_error_Some. congruence. }
      destruct (nth_error (map snd chunks) i) as [b|] eqn:Hb.
      2:{ apply nth_error_None in Hb. lia. }
      assert (Hlen : (S i < List.length (map snd chunks))%nat).
      { rewrite <- (gaplessCalls_length plus durationOf ctx (map snd chunks)
                      (nextNode w) (nextStartTimeRef w)).
        apply nth_error_Some. congruence. }
      pose proof (@gaplessCalls_next plus durationOf ctx (map snd chunks)
                    (nextNode w) (nextStartTimeRef w) i s b Hs Hb Hlen) as Hx.
      rewrite Hx in Hn. injection Hn as <-. apply M.
Qed.

Lemma C1_gapless_scheduling_witness :
  (arriveInTimeWith plus64 duration64 outputCtx0 tenths started0 /\
   log (snd (scheduleAllWith plus64 duration64 outputCtx0 tenths started0))
   = log started0
     ++ gaplessCalls plus64 duration64 outputCtx0 (nextNode started0)
          (nextStartTimeRef started0) (map snd tenths)) /\
  (arriveInTimeWith Qplus duration outputCtx0 twoChunks started0 /\
   (forall a b, a <= a + duration b) /\
   forall i s s',
     nth_error (newStarts started0
        (snd (scheduleAllWith Qplus duration outputCtx0 twoChunks started0))) i
       = Some s ->
     nth_error (newStarts started0
        (snd (scheduleAllWith Qplus duration outputCtx0 twoChunks started0))) (S i)
       = Some s' ->
     s <= s').
Proof.
  split.
  - assert (H : arriveInTimeWith plus64 duration64 outputCtx0 tenths started0).
    { vm_compute. repeat split; intros E; discriminate E. }
    split; [exact H|].
    exact (proj1 (proj2 (proj2
      (C1_gapless_scheduling plus64 duration64 outputCtx0 tenths started0 H)))).
  - assert (H : arriveInTimeWith Qplus duration outputCtx0 twoChunks started0).
    { vm_compute. repeat split; intros E; discriminate E. }
    assert (M : forall a b, a <= a + duration b).
    { intros a b. rewrite <- (Qplus_0_r a) at 1.
      apply Qplus_le_r, duration_nonneg. }
    split; [exact H|]. split; [exact M|].
    exact (proj2 (proj2 (proj2 (proj2 (proj2 (proj2
      (C1_gapless_scheduling Qplus duration outputCtx0 twoChunks started0 H))))))
      M).
Defined.

(** The example of the specification, in binary64: A (1.0 s) enqueued at
    t=0 starts at 0; B (0.5 s) enqueued at t=0.2 starts at 1.0, and the
    cursor ends at 1.5. *)
Example two_chunks_back_to_back :
  let w' := snd (scheduleAllWith plus64 duration64 outputCtx0 twoChunks started0) in
  map (fun s => (fst s, Qred (snd s))) (startsOf (log w'))
    = [(0%nat, 0); (1%nat, 1)] /\
  Qred (nextStartTimeRef w') = 3 # 2 /\
  audioSourcesRef w' = [0%nat; 1%nat].
Proof. vm_compute. repeat split. Qed.

(** Chunks of 0.1 s, 0.2 s and 0.1 s that arrive together, in binary64:
    the third starts at the binary64 sum of 0.1 and 0.2, which is
    0.30000000000000004 and not the binary64 value nearest to 3/10. *)
Example tenths_in_binary64 :
  let w' := snd (scheduleAllWith plus64 duration64 outputCtx0 tenths started0) in
  newStarts started0 w'
  = [0;
     7205759403792794 # 72057594037927936;
     5404319552844596 # 18014398509481984] /\
  Q_of_binary64 (binary64_of_Q (3 # 10))
  = 5404319552844595 # 18014398509481984.
Proof. vm_compute. split; reflexivity. Qed.

(** ** Late arrival *)

(** C2.  A chunk that arrives when the clock has passed the cursor is
    started at the clock time of its arrival, and the cursor moves to that
    time plus the chunk's duration.  No chunk, early or late, is ever
    started before the clock time of its arrival. *)
Theorem C2_late_arrival_catch_up
    (env : Env) (ctx : AudioContext) (buf : AudioBuffer) (w : World) :
  nextStartTimeRef w < currentTime env ->
  let w' := snd (schedulePlayback env ctx buf w) in
  startsOf (log w') = startsOf (log w) ++ [(nextNode w, currentTime env)] /\
  nextStartTimeRef w' = currentTime env + duration buf /\
  forall env0 ctx0 buf0 w0 t,
    newStarts w0 (snd (schedulePlayback env0 ctx0 buf0 w0)) = [t] ->
    currentTime env0 <= t.
Proof.
  intros H. cbv zeta. split; [|split].
  - rewrite schedulePlayback_log, startsOf_app. unfold startAt.
    rewrite (Math_max_late H). reflexivity.
  - rewrite schedulePlayback_cursor. unfold startAt.
    rewrite (Math_max_late H). reflexivity.
  - intros env0 ctx0 buf0 w0 t E.
    rewrite (@newStarts_app w0 _ _ (schedulePlayback_startTimes env0 ctx0 buf0 w0)) in E.
    injection E as <-. apply Math_max_ge_r.
Qed.

Lemma C2_late_arrival_catch_up_witness :
  nextStartTimeRef started0 < currentTime (quietAt (3 # 10)) /\
  startsOf (log (snd (schedulePlayback (quietAt (3 # 10)) outputCtx0 chunkA started0)))
  = startsOf (log started0) ++ [(nextNode started0, currentTime (quietAt (3 # 10)))].
Proof.
  assert (H : nextStartTimeRef started0 < currentTime (quietAt (3 # 10))).
  { reflexivity. }
  split; [exact H|].
  exact (proj1 (C2_late_arrival_catch_up (quietAt (3 # 10)) outputCtx0 chunkA started0 H)).
Defined.

(** ** The interruption branch *)

Lemma set_log_same (w : World) : set_log (log w) w = w.
Proof. destruct w; reflexivity. Qed.

Lemma stopAll_spec (env : Env) (sources : list SourceNode) :
  forall w,
    stopAll env sources w
    = (Normal tt, set_log (log w ++ map SourceStop sources) w).
Proof.
  induction sources as [|src rest IH]; intros w.
  - simpl. rewrite app_nil_r, set_log_same. reflexivity.
  - unfold stopAll in *. simpl. unfold bind at 1.
    assert (E : tryCatch (sourceStop env src) (fun _ => ret tt) w
                = (Normal tt, set_log (log w ++ [SourceStop src]) w)).
    { unfold tryCatch, sourceStop, bind, call, modify.
      destruct (stopThrows env src); reflexivity. }
    rewrite E, IH. simpl. rewrite <- app_assoc. reflexivity.
Qed.

Lemma handleInterruptions_off env message w :
  truthy_bool (interruptedFlag message) = false ->
  handleInterruptions env message w = (Normal tt, w).
Proof.
  intros H. unfold handleInterruptions. rewrite H. reflexivity.
Qed.

Lemma handleInterruptions_on env message w :
  truthy_bool (interruptedFlag message) = true ->
  handleInterruptions env message w
  = (Normal tt,
     let stopped :=
       set_audioSourcesRef []
         (set_log (log w ++ map SourceStop (audioSourcesRef w)) w) in
     match outputAudioContextRef w with
     | Some _ => set_nextStartTimeRef (currentTimeAtInterrupt env) stopped
     | None => stopped
     end).
Proof.
  intros H. unfold handleInterruptions. rewrite H.
  unfold bind at 1. unfold read at 1.
  unfold bind at 1. rewrite stopAll_spec.
  unfold bind, modify, read. simpl.
  destruct (outputAudioContextRef w); reflexivity.
Qed.

(** ** The audio branch, case by case *)

Lemma handleAudioOutput_no_audio dA dAD env message w :
  truthy_string (base64Audio message) = None ->
  handleAudioOutput dA dAD env message w = (Normal false, w).
Proof.
  intros H. unfold handleAudioOutput. rewrite H. reflexivity.
Qed.

Lemma handleAudioOutput_no_context dA dAD env message w base64 :
  truthy_string (base64Audio message) = Some base64 ->
  outputAudioContextRef w = None ->
  handleAudioOutput dA dAD env message w = (Normal true, w).
Proof.
  intros H C. unfold handleAudioOutput. rewrite H.
  unfold bind, read. rewrite C. reflexivity.
Qed.

Lemma handleAudioOutput_scheduled dA dAD env message w base64 ctx bytes buf :
  truthy_string (base64Audio message) = Some base64 ->
  outputAudioContextRef w = Some ctx ->
  dA base64 = inr bytes ->
  dAD bytes ctx 24000%Z 1%Z = inr buf ->
  handleAudioOutput dA dAD env message w
  = (Normal false,
     snd (schedulePlayback env ctx buf (snd (visualizationHook env w)))).
Proof.
  intros H C D1 D2. unfold handleAudioOutput. rewrite H.
  unfold bind, read. rewrite C, D1. simpl. rewrite D2. reflexivity.
Qed.

Lemma handleAudioOutput_decode_fails dA dAD env message w base64 ctx :
  truthy_string (base64Audio message) = Some base64 ->
  outputAudioContextRef w = Some ctx ->
  forall e,
    (dA base64 = inl e \/
     exists bytes, dA base64 = inr bytes /\ dAD bytes ctx 24000%Z 1%Z = inl e) ->
    handleAudioOutput dA dAD env message w
    = (Throw e, snd (visualizationHook env w)).
Proof.
  intros H C e D. unfold handleAudioOutput. rewrite H.
  unfold bind, read. rewrite C.
  destruct D as [D1|[bytes [D1 D2]]]; rewrite D1; simpl.
  - reflexivity.
  - rewrite D2. reflexivity.
Qed.

(** ** The whole handler *)

Lemma onmessage_unfold dA dAD env message w :
  onmessage dA dAD env message w
  = match handleAudioOutput dA dAD env message w with
    | (Normal true, w1) => (Normal tt, w1)
    | (Normal false, w1) => handleInterruptions env message w1
    | (Throw e, w1) => (Throw e, w1)
    end.
Proof.
  unfold onmessage, bind.
  destruct (handleAudioOutput dA dAD env message w) as [[[|]|e] w1]; reflexivity.
Qed.

Lemma Set_add_In (n x : SourceNode) (s : list SourceNode) :
  In x (Set_add n s) <-> x = n \/ In x s.
Proof.
  unfold Set_add. destruct (existsb (Nat.eqb n) s) eqn:E.
  - split; [auto|]. intros [->|H]; [|exact H].
    apply existsb_exists in E. destruct E as [y [Hy Ey]].
    apply Nat.eqb_eq in Ey. subst y. exact Hy.
  - rewrite in_app_iff. simpl. split.
    + intros [H|[H|[]]]; auto.
    + intros [->|H]; auto.
Qed.

Lemma interrupted_world env message w ctx :
  truthy_bool (interruptedFlag message) = true ->
  outputAudioContextRef w = Some ctx ->
  let w' := snd (handleInterruptions env message w) in
  fst (handleInterruptions env message w) = Normal tt /\
  audioSourcesRef w' = [] /\
  nextStartTimeRef w' = currentTimeAtInterrupt env /\
  forall n, In n (audioSourcesRef w) -> In (SourceStop n) (log w').
Proof.
  intros F C. cbv zeta. rewrite (handleInterruptions_on env message w F), C.
  simpl. repeat split.
  intros n Hn. apply in_or_app. right. apply in_map. exact Hn.
Qed.

Lemma onmessage_interrupted
    (dA : string -> Exn + list byte)
    (dAD : list byte -> AudioContext -> Z -> Z -> Exn + AudioBuffer)
    (env : Env) (message : LiveServerMessage) (w : World) (ctx : AudioContext) :
  truthy_bool (interruptedFlag message) = true ->
  outputAudioContextRef w = Some ctx ->
  fst (onmessage dA dAD env message w) = Normal tt ->
  let w' := snd (onmessage dA dAD env message w) in
  audioSourcesRef w' = [] /\
  nextStartTimeRef w' = currentTimeAtInterrupt env /\
  forall n, In n (audioSourcesRef w) -> In (SourceStop n) (log w').
Proof.
  intros F C N. cbv zeta. rewrite onmessage_unfold in *.
  destruct (truthy_string (base64Audio message)) as [base64|] eqn:A.
  - destruct (dA base64) as [e|bytes] eqn:D1.
    { rewrite (handleAudioOutput_decode_fails dA dAD env message w A C (e := e)) in N
        by (left; exact D1).
      discriminate N. }
    destruct (dAD bytes ctx 24000%Z 1%Z) as [e|buf] eqn:D2.
    { rewrite (handleAudioOutput_decode_fails dA dAD env message w A C (e := e)) in N
        by (right; exists bytes; split; assumption).
      discriminate N. }
    rewrite (handleAudioOutput_scheduled dA dAD env message w A C D1 D2).
    set (w1 := snd (schedulePlayback env ctx buf (snd (visualizationHook env w)))).
    assert (C1 : outputAudioContextRef w1 = Some ctx) by exact C.
    destruct (interrupted_world env message w1 F C1) as [_ [S [T L]]].
    split; [exact S|]. split; [exact T|].
    intros n Hn. apply L. unfold w1.
    rewrite schedulePlayback_sources. apply Set_add_In. right. exact Hn.
  - rewrite (handleAudioOutput_no_audio dA dAD env message w A).
    destruct (interrupted_world env message w F C) as [_ H]. exact H.
Qed.

(** C3.  When the handler has processed a message that carries the
    interruption flag, with an output context in place, the set of active
    sources is empty and the cursor is the clock time read at the
    interruption, whatever the set held before; every source that was in
    the set has had [stop()] called on it. *)
Theorem C3_interrupt_postcondition
    (dA : string -> Exn + list byte)
    (dAD : list byte -> AudioContext -> Z -> Z -> Exn + AudioBuffer)
    (env : Env) (message : LiveServerMessage) (w : World) (ctx : AudioContext) :
  truthy_bool (interruptedFlag message) = true ->
  outputAudioContextRef w = Some ctx ->
  fst (onmessage dA dAD env message w) = Normal tt ->
  let w' := snd (onmessage dA dAD env message w) in
  audioSourcesRef w' = [] /\
  nextStartTimeRef w' = currentTimeAtInterrupt env /\
  forall n, In n (audioSourcesRef w) -> In (SourceStop n) (log w').
Proof.
  apply onmessage_interrupted.
Qed.

Lemma C3_interrupt_postcondition_witness :
  truthy_bool (interruptedFlag interruptMessage) = true /\
  outputAudioContextRef playingA = Some outputCtx0 /\
  fst (onmessage decodeAudio_sample decodeAudioData_sample
         (quietAt (3 # 10)) interruptMessage playingA) = Normal tt /\
  audioSourcesRef (snd (onmessage decodeAudio_sample decodeAudioData_sample
                          (quietAt (3 # 10)) interruptMessage playingA)) = [].
Proof.
  split; [reflexivity|]. split; [reflexivity|]. split; [reflexivity|].
  exact (proj1 (C3_interrupt_postcondition decodeAudio_sample
                  decodeAudioData_sample (quietAt (3 # 10)) interruptMessage
                  playingA (ctx := outputCtx0)
                  eq_refl eq_refl eq_refl)).
Defined.

(** The example of the specification: A enqueued at t=0, interruption at
    t=0.3: A is stopped, the set is empty, the cursor is 0.3. *)
Example interrupt_while_playing :
  let w' := snd (onmessage decodeAudio_sample decodeAudioData_sample
                   (hostileAt (3 # 10)) interruptMessage playingA) in
  audioSourcesRef playingA = [0%nat] /\
  existsb (fun c => match c with SourceStop O => true | _ => false end) (log w')
    = true /\
  audioSourcesRef w' = [] /\
  nextStartTimeRef w' = 3 # 10.
Proof. vm_compute. repeat split. Qed.

(** ** Interrupting never throws *)

(** C4.  On a message that carries the interruption flag, the interruption
    branch ends normally for every world and every behaviour of [stop()],
    also one in which every call throws: [stop()] has been called on every
    source of the set, the set is empty, and the scheduler takes the next
    chunk at once: scheduling it ends normally, the set then holds exactly
    that chunk, and with an output context in place the chunk starts at
    the clock time of its arrival. *)
Theorem C4_interrupt_never_throws
    (env : Env) (message : LiveServerMessage) (w : World) :
  truthy_bool (interruptedFlag message) = true ->
  let w' := snd (handleInterruptions env message w) in
  fst (handleInterruptions env message w) = Normal tt /\
  (forall n, In n (audioSourcesRef w) -> In (SourceStop n) (log w')) /\
  audioSourcesRef w' = [] /\
  forall env' ctx buf,
    let w'' := snd (schedulePlayback env' ctx buf w') in
    fst (schedulePlayback env' ctx buf w') = Normal tt /\
    audioSourcesRef w'' = [nextNode w] /\
    (outputAudioContextRef w <> None ->
     currentTimeAtInterrupt env <= currentTime env' ->
     exists t, newStarts w' w'' = [t] /\ t == currentTime env').
Proof.
  intros F. cbv zeta. rewrite (handleInterruptions_on env message w F).
  cbv zeta. cbn [fst snd].
  set (w' := match outputAudioContextRef w with
             | Some _ => _
             | None => _
             end).
  assert (S : audioSourcesRef w' = []).
  { unfold w'. destruct (outputAudioContextRef w); reflexivity. }
  assert (L : log w' = log w ++ map SourceStop (audioSourcesRef w)).
  { unfold w'. destruct (outputAudioContextRef w); reflexivity. }
  assert (K : nextNode w' = nextNode w).
  { unfold w'. destruct (outputAudioContextRef w); reflexivity. }
  split; [reflexivity|]. split; [|split; [exact S|]].
  - intros n Hn. rewrite L. apply in_or_app. right. apply in_map. exact Hn.
  - intros env' ctx buf. cbv zeta. split; [reflexivity|]. split.
    + rewrite schedulePlayback_sources, S, K. reflexivity.
    + intros C T. exists (startAt env' w'). split.
      * apply newStarts_app, schedulePlayback_startTimes.
      * assert (P : nextStartTimeRef w' = currentTimeAtInterrupt env).
        { unfold w'. destruct (outputAudioContextRef w); [reflexivity|].
          exfalso. apply C. reflexivity. }
        unfold startAt. rewrite P. apply Qle_antisym.
        -- unfold Math_max.
           destruct (Qle_bool (currentTime env') (currentTimeAtInterrupt env));
             [exact T|apply Qle_refl].
        -- apply Math_max_ge_r.
Qed.

Lemma C4_interrupt_never_throws_witness :
  truthy_bool (interruptedFlag interruptMessage) = true /\
  stopThrows (hostileAt (3 # 10)) 0%nat = Some "InvalidStateError"%string /\
  fst (handleInterruptions (hostileAt (3 # 10)) interruptMessage playingA)
  = Normal tt.
Proof.
  split; [reflexivity|]. split; [reflexivity|].
  exact (proj1 (C4_interrupt_never_throws (hostileAt (3 # 10))
                  interruptMessage playingA eq_refl)).
Defined.

(** ** Stopping the mirror *)

Lemma forEach_call (A : Type) (f : A -> Call) (xs : list A) :
  forall w,
    forEach xs (fun x => call (f x)) w
    = (Normal tt, set_log (log w ++ map f xs) w).
Proof.
  induction xs as [|x rest IH]; intros w.
  - simpl. rewrite app_nil_r, set_log_same. reflexivity.
  - simpl. unfold bind at 1. unfold call at 1. unfold modify at 1.
    rewrite IH. simpl. rewrite <- app_assoc. reflexivity.
Qed.

Lemma stopMirror_spec (w : World) :
  stopMirror w
  = (Normal tt,
     mkWorld None (inputAudioContextRef w) (outputAudioContextRef w)
       (nextStartTimeRef w) (audioSourcesRef w) (sessionPromiseRef w)
       (activeSessionRef w) (videoIntervalRef w) IDLE 0
       (nextNode w) (log w ++ teardownCalls w)).
Proof.
  destruct w as [st ic oc cur srcs sp act vi app vol nn lg].
  unfold teardownCalls.
  destruct st as [[tracks]|], ic, oc, act, (truthy_id vi) eqn:V;
    unfold stopMirror, bind, read, ifSome; cbv beta iota;
    cbn [activeSessionRef streamRef getTracks ret];
    rewrite ?forEach_call; simpl; rewrite ?V; simpl;
    repeat rewrite <- app_assoc; simpl; rewrite ?app_nil_r; reflexivity.
Qed.

(** C9.  [stopMirror] ends normally and makes no call on the remote
    session object: the calls it makes are [stop()] on the tracks of the
    media stream, [close()] on the input and on the output audio context
    and [clearInterval] on the video loop, each if the ref is set, and
    every one of them is local.  It leaves the session refs as they were,
    clears the stream ref and sets the app state to [IDLE] and the volume
    level to 0. *)
Theorem C9_local_only_teardown (w : World) :
  let w' := snd (stopMirror w) in
  fst (stopMirror w) = Normal tt /\
  log w' = log w ++ teardownCalls w /\
  (forall c, In c (teardownCalls w) -> isSessionCall c = false) /\
  activeSessionRef w' = activeSessionRef w /\
  sessionPromiseRef w' = sessionPromiseRef w /\
  streamRef w' = None /\
  appState w' = IDLE /\
  volumeLevel w' = 0.
Proof.
  cbv zeta. rewrite stopMirror_spec. cbn [fst snd]. simpl.
  repeat split.
  intros c H. unfold teardownCalls in H.
  repeat (apply in_app_or in H; destruct H as [H|H]).
  - destruct (streamRef w) as [s|]; [|destruct H].
    apply in_map_iff in H. destruct H as [t [<- _]]. reflexivity.
  - destruct (inputAudioContextRef w); [|destruct H].
    destruct H as [<-|[]]. reflexivity.
  - destruct (outputAudioContextRef w); [|destruct H].
    destruct H as [<-|[]]. reflexivity.
  - destruct (truthy_id (videoIntervalRef w)); [|destruct H].
    destruct H as [<-|[]]. reflexivity.
Qed.

(** A mirror that was started, whose session resolved, and is stopped:
    four local calls and none on session 7. *)
Example stop_after_start :
  activeSessionRef stopped0 = Some 7%nat /\
  log stopped0
  = [LiveConnect 7%nat; SetInterval 500 42;
     TrackStop 0; TrackStop 1;
     ContextClose inputCtx0; ContextClose outputCtx0; ClearInterval 42].
Proof. vm_compute. split; reflexivity. Qed.

(** ** A chunk after [stopMirror] *)

Lemma stopMirror_keeps_scheduler (w : World) :
  let w' := snd (stopMirror w) in
  outputAudioContextRef w' = outputAudioContextRef w /\
  nextStartTimeRef w' = nextStartTimeRef w /\
  audioSourcesRef w' = audioSourcesRef w /\
  nextNode w' = nextNode w.
Proof.
  cbv zeta. rewrite stopMirror_spec. repeat split.
Qed.

(** Without an output context the handler drops the chunk: it returns
    before it touches anything, the interruption branch included. *)
Lemma onmessage_without_context dA dAD env message w base64 :
  truthy_string (base64Audio message) = Some base64 ->
  outputAudioContextRef w = None ->
  onmessage dA dAD env message w = (Normal tt, w).
Proof.
  intros A C. rewrite onmessage_unfold.
  rewrite (handleAudioOutput_no_context dA dAD env message w A C). reflexivity.
Qed.

(** C5.  [stopMirror] closes the output context but leaves it in
    [outputAudioContextRef], so the guard of the handler does not fire: a
    chunk that arrives at t=1 after the mirror was stopped is decoded,
    started on the closed context and added to the set, and the cursor
    moves from 0 to 1 plus the duration of the chunk. *)
Theorem C5_chunk_after_stopMirror_is_scheduled :
  let w' := snd (onmessage decodeAudio_sample decodeAudioData_sample
                   (quietAt 1) (audioMessage "AAAA" None) stopped0) in
  existsb (fun c => match c with ContextClose _ => true | _ => false end)
    (log stopped0) = true /\
  outputAudioContextRef stopped0 = Some outputCtx0 /\
  audioSourcesRef stopped0 = [] /\
  nextStartTimeRef stopped0 = 0 /\
  audioSourcesRef w' = [0%nat] /\
  nextStartTimeRef w' = 1 + (2 # 24000) /\
  newStarts stopped0 w' = [1].
Proof. vm_compute. repeat split. Qed.

(** ** A chunk that fails to decode *)

(** C6, as stated, fails: the handler does not end normally on a payload
    the decoder rejects, it throws the decoder's error; and the
    interruption flag of the same message is not acted on. *)
Lemma C6_decode_error_is_thrown :
  let run := onmessage decodeAudio_sample decodeAudioData_sample
               (quietAt (3 # 10)) (audioMessage "!" (Some true)) playingA in
  decodeAudio_sample "!" = inl "InvalidCharacterError"%string /\
  fst run = Throw "InvalidCharacterError"%string /\
  fst run <> Normal tt /\
  audioSourcesRef (snd run) = [0%nat].
Proof.
  vm_compute. repeat split. intros H. discriminate H.
Qed.

(** C6, amended.  When either decoding step fails on a chunk, the handler
    throws that error to its caller and stops there: the cursor, the set of
    active sources, the output context and the node counter are as before,
    and the only call made is the timer of the visualization hook; no
    source is created, started or stopped. *)
Theorem C6_decode_failure_leaves_scheduler
    (dA : string -> Exn + list byte)
    (dAD : list byte -> AudioContext -> Z -> Z -> Exn + AudioBuffer)
    (env : Env) (message : LiveServerMessage) (w : World)
    (base64 : string) (ctx : AudioContext) (e : Exn) :
  truthy_string (base64Audio message) = Some base64 ->
  outputAudioContextRef w = Some ctx ->
  (dA base64 = inl e \/
   exists bytes, dA base64 = inr bytes /\ dAD bytes ctx 24000%Z 1%Z = inl e) ->
  let w' := snd (onmessage dA dAD env message w) in
  fst (onmessage dA dAD env message w) = Throw e /\
  nextStartTimeRef w' = nextStartTimeRef w /\
  audioSourcesRef w' = audioSourcesRef w /\
  outputAudioContextRef w' = outputAudioContextRef w /\
  nextNode w' = nextNode w /\
  log w' = log w ++ [SetTimeout 200].
Proof.
  intros A C D. cbv zeta. rewrite onmessage_unfold.
  rewrite (handleAudioOutput_decode_fails dA dAD env message w A C D).
  repeat split.
Qed.

Lemma C6_decode_failure_leaves_scheduler_witness :
  truthy_string (base64Audio (audioMessage "AAA" None)) = Some "AAA"%string /\
  outputAudioContextRef playingA = Some outputCtx0 /\
  (exists bytes,
     decodeAudio_sample "AAA" = inr bytes /\
     decodeAudioData_sample bytes outputCtx0 24000%Z 1%Z = inl "RangeError"%string) /\
  audioSourcesRef
    (snd (onmessage decodeAudio_sample decodeAudioData_sample
            (quietAt (3 # 10)) (audioMessage "AAA" None) playingA))
  = audioSourcesRef playingA.
Proof.
  assert (D : exists bytes,
     decodeAudio_sample "AAA" = inr bytes /\
     decodeAudioData_sample bytes outputCtx0 24000%Z 1%Z = inl "RangeError"%string).
  { eexists. split; reflexivity. }
  split; [reflexivity|]. split; [reflexivity|]. split; [exact D|].
  exact (proj1 (proj2 (proj2
    (C6_decode_failure_leaves_scheduler decodeAudio_sample
       decodeAudioData_sample (quietAt (3 # 10)) (audioMessage "AAA" None)
       playingA (base64 := "AAA") (ctx := outputCtx0) (e := "RangeError"%string)
       eq_refl eq_refl (or_intror D))))).
Defined.

(** ** Messages without audio and without interruption *)

Lemma no_inline_audio (message : LiveServerMessage) :
  hasInlineAudio message = false ->
  truthy_string (base64Audio message) = None.
Proof.
  unfold hasInlineAudio, base64Audio.
  destruct (serverContent message) as [sc|]; [|reflexivity]. simpl.
  destruct (modelTurn sc) as [mt|]; [|reflexivity]. simpl.
  destruct (parts mt) as [[|p ps]|]; [reflexivity| |reflexivity]. simpl.
  unfold partAudio. intros H. apply orb_false_elim in H. destruct H as [H _].
  destruct (truthy_string (option_bind (inlineData p) (fun b => data b)));
    [discriminate H|reflexivity].
Qed.

(** C10.  A message that carries no inline audio data and no interruption
    flag leaves the world as it was: the handler ends normally and the
    cursor, the set of active sources, the output context, and every other
    ref, state and call log are unchanged. *)
Theorem C10_other_messages_change_nothing
    (dA : string -> Exn + list byte)
    (dAD : list byte -> AudioContext -> Z -> Z -> Exn + AudioBuffer)
    (env : Env) (message : LiveServerMessage) (w : World) :
  hasInlineAudio message = false ->
  truthy_bool (interruptedFlag message) = false ->
  onmessage dA dAD env message w = (Normal tt, w) /\
  let w' := snd (onmessage dA dAD env message w) in
  nextStartTimeRef w' = nextStartTimeRef w /\
  audioSourcesRef w' = audioSourcesRef w /\
  outputAudioContextRef w' = outputAudioContextRef w.
Proof.
  intros A F.
  assert (E : onmessage dA dAD env message w = (Normal tt, w)).
  { rewrite onmessage_unfold.
    rewrite (handleAudioOutput_no_audio dA dAD env message w (no_inline_audio message A)).
    apply handleInterruptions_off, F. }
  split; [exact E|]. cbv zeta. rewrite E. repeat split.
Qed.

Lemma C10_other_messages_change_nothing_witness :
  hasInlineAudio textMessage = false /\
  truthy_bool (interruptedFlag textMessage) = false /\
  onmessage decodeAudio_sample decodeAudioData_sample (hostileAt 5)
    textMessage playingA = (Normal tt, playingA).
Proof.
  split; [reflexivity|]. split; [reflexivity|].
  exact (proj1 (C10_other_messages_change_nothing decodeAudio_sample
                  decodeAudioData_sample (hostileAt 5) textMessage playingA
                  eq_refl eq_refl)).
Defined.

Lemma chunk_after_stopMirror dA dAD env message w base64 ctx bytes buf :
  truthy_string (base64Audio message) = Some base64 ->
  truthy_bool (interruptedFlag message) = false ->
  outputAudioContextRef w = Some ctx ->
  dA base64 = inr bytes ->
  dAD bytes ctx 24000%Z 1%Z = inr buf ->
  let w' := snd (onmessage dA dAD env message (snd (stopMirror w))) in
  audioSourcesRef w' = Set_add (nextNode w) (audioSourcesRef w) /\
  nextStartTimeRef w'
  = Math_max (nextStartTimeRef w) (currentTime env) + duration buf.
Proof.
  intros A F C D1 D2. cbv zeta. rewrite onmessage_unfold, stopMirror_spec.
  cbn [snd].
  erewrite handleAudioOutput_scheduled; [|exact A|exact C|exact D1|exact D2].
  rewrite handleInterruptions_off by exact F. split; reflexivity.
Qed.

(** ** The cursor *)

Lemma startMirror_cursor (env : StartEnv) (w : World) :
  reachesContexts env = true ->
  let w' := snd (startMirror env w) in
  nextStartTimeRef w' = outputCurrentTime env /\
  outputAudioContextRef w' = Some (newOutputContext env) /\
  sessionPromiseRef w' = Some (liveConnect env).
Proof.
  unfold reachesContexts, startMirror, tryCatch, bind.
  destruct env as [[e|stream] [|] [e'|u] ic oc t s id]; simpl;
    intros H; try discriminate H; repeat split.
Qed.

Lemma startMirror_fails (env : StartEnv) (w : World) :
  reachesContexts env = false ->
  let w' := snd (startMirror env w) in
  nextStartTimeRef w' = nextStartTimeRef w /\
  outputAudioContextRef w' = outputAudioContextRef w /\
  sessionPromiseRef w' = sessionPromiseRef w /\
  appState w' = ERROR.
Proof.
  unfold reachesContexts, startMirror, tryCatch, bind.
  destruct env as [[e|stream] [|] [e'|u] ic oc t s id]; simpl;
    intros H; try discriminate H; repeat split.
Qed.

Lemma handleAudioOutput_cursor dA dAD env message w :
  nextStartTimeRef w
  <= nextStartTimeRef (snd (handleAudioOutput dA dAD env message w)).
Proof.
  destruct (truthy_string (base64Audio message)) as [base64|] eqn:A.
  2:{ rewrite (handleAudioOutput_no_audio dA dAD env message w A). apply Qle_refl. }
  destruct (outputAudioContextRef w) as [ctx|] eqn:C.
  2:{ rewrite (handleAudioOutput_no_context dA dAD env message w A C). apply Qle_refl. }
  destruct (dA base64) as [e|bytes] eqn:D1.
  { rewrite (handleAudioOutput_decode_fails dA dAD env message w A C (e := e))
      by (left; exact D1).
    apply Qle_refl. }
  destruct (dAD bytes ctx 24000%Z 1%Z) as [e|buf] eqn:D2.
  { rewrite (handleAudioOutput_decode_fails dA dAD env message w A C (e := e))
      by (right; exists bytes; split; assumption).
    apply Qle_refl. }
  rewrite (handleAudioOutput_scheduled dA dAD env message w A C D1 D2).
  cbn [snd]. rewrite schedulePlayback_cursor.
  apply Qle_trans with (startAt env (snd (visualizationHook env w))).
  - apply Math_max_ge_l.
  - rewrite <- (Qplus_0_r (startAt _ _)) at 1.
    apply Qplus_le_r, duration_nonneg.
Qed.

Lemma step_cursor_monotone dA dAD (op : Op) (w : World) :
  resets op = false ->
  nextStartTimeRef w <= nextStartTimeRef (step dA dAD op w).
Proof.
  intros R. destruct op as [env|sess|env message|source|]; simpl in R.
  - discriminate R.
  - apply Qle_refl.
  - unfold step, perform. rewrite onmessage_unfold.
    pose proof (handleAudioOutput_cursor dA dAD env message w) as H.
    destruct (handleAudioOutput dA dAD env message w) as [[[|]|e] w1];
      cbn [snd] in *; try exact H.
    rewrite handleInterruptions_off by exact R. exact H.
  - unfold step, perform, deliverEnded, bind, read.
    destruct (existsb (isListener source) (log w)); apply Qle_refl.
  - unfold step, perform. rewrite stopMirror_spec. apply Qle_refl.
Qed.

Lemma run_cursor_monotone dA dAD (ops : list Op) :
  forall w,
    forallb (fun op => negb (resets op)) ops = true ->
    nextStartTimeRef w <= nextStartTimeRef (run dA dAD ops w).
Proof.
  induction ops as [|op rest IH]; intros w H.
  - apply Qle_refl.
  - simpl in H. apply andb_prop in H. destruct H as [R H].
    apply negb_true_iff in R. simpl.
    apply Qle_trans with (nextStartTimeRef (step dA dAD op w)).
    + apply step_cursor_monotone, R.
    + apply IH, H.
Qed.

Lemma step_reset dA dAD (op : Op) (w : World) :
  resets op = true ->
  match op with
  | StartMirror env => reachesContexts env = true
  | OnMessage env message =>
      outputAudioContextRef w <> None /\
      fst (onmessage dA dAD env message w) = Normal tt
  | _ => True
  end ->
  nextStartTimeRef (step dA dAD op w) = resetTime op.
Proof.
  intros R H. destruct op as [env|sess|env message|source|];
    simpl in R; try discriminate R.
  - exact (proj1 (startMirror_cursor env w H)).
  - destruct H as [C N].
    destruct (outputAudioContextRef w) as [ctx|] eqn:E; [|contradiction].
    exact (proj1 (proj2
      (onmessage_interrupted dA dAD env message w R E N))).
Qed.

Lemma onmessage_decodes_normal dA dAD env message (w : World) :
  truthy_bool (interruptedFlag message) = true ->
  decodes dA dAD message w ->
  fst (onmessage dA dAD env message w) = Normal tt.
Proof.
  intros F D. unfold decodes in D. rewrite onmessage_unfold.
  destruct (truthy_string (base64Audio message)) as [base64|] eqn:A.
  - destruct (outputAudioContextRef w) as [ctx|] eqn:C.
    + destruct D as [bytes [buf [D1 D2]]].
      rewrite (handleAudioOutput_scheduled dA dAD env message w A C D1 D2).
      rewrite handleInterruptions_on by exact F. reflexivity.
    + rewrite (handleAudioOutput_no_context dA dAD env message w A C).
      reflexivity.
  - rewrite (handleAudioOutput_no_audio dA dAD env message w A).
    rewrite handleInterruptions_on by exact F. reflexivity.
Qed.

(** C7.  The cursor never moves backward while chunks are queued: not over
    one scheduled chunk, not over one run of the audio branch whatever its
    outcome, and not over any sequence of operations none of which is an
    interruption or a start of the mirror.  A message with the
    interruption flag, handled with an output context in place and with a
    chunk, if it has one, that decodes, ends normally and sets the cursor
    to the clock time read at the interruption; a start of the mirror that
    gets as far as creating the contexts sets it to the clock time of the
    new output context; and an operation after which the cursor is
    smaller than before is one of these two. *)
Theorem C7_cursor_invariant
    (dA : string -> Exn + list byte)
    (dAD : list byte -> AudioContext -> Z -> Z -> Exn + AudioBuffer) :
  (forall env ctx buf w,
     nextStartTimeRef w <= nextStartTimeRef (snd (schedulePlayback env ctx buf w))) /\
  (forall env message w,
     nextStartTimeRef w
     <= nextStartTimeRef (snd (handleAudioOutput dA dAD env message w))) /\
  (forall ops w,
     forallb (fun op => negb (resets op)) ops = true ->
     nextStartTimeRef w <= nextStartTimeRef (run dA dAD ops w)) /\
  (forall env message w,
     truthy_bool (interruptedFlag message) = true ->
     outputAudioContextRef w <> None ->
     decodes dA dAD message w ->
     fst (onmessage dA dAD env message w) = Normal tt /\
     nextStartTimeRef (step dA dAD (OnMessage env message) w)
     = currentTimeAtInterrupt env) /\
  (forall env w,
     reachesContexts env = true ->
     nextStartTimeRef (step dA dAD (StartMirror env) w) = outputCurrentTime env) /\
  (forall op w,
     nextStartTimeRef (step dA dAD op w) < nextStartTimeRef w ->
     resets op = true).
Proof.
  split; [|split; [|split; [|split; [|split]]]].
  - intros env ctx buf w. rewrite schedulePlayback_cursor.
    apply Qle_trans with (startAt env w).
    + apply Math_max_ge_l.
    + rewrite <- (Qplus_0_r (startAt env w)) at 1.
      apply Qplus_le_r, duration_nonneg.
  - apply handleAudioOutput_cursor.
  - intros ops w H. apply run_cursor_monotone, H.
  - intros env message w F C D.
    pose proof (onmessage_decodes_normal dA dAD env message w F D) as N.
    split; [exact N|].
    apply (step_reset dA dAD (OnMessage env message) w F (conj C N)).
  - intros env w H.
    apply (step_reset dA dAD (StartMirror env) w eq_refl H).
  - intros op w H. destruct (resets op) eqn:R; [reflexivity|].
    exfalso. apply (Qlt_not_le _ _ H), step_cursor_monotone, R.
Qed.

Lemma C7_cursor_invariant_witness :
  (forallb (fun op => negb (resets op)) queueing = true /\
   nextStartTimeRef started0
   <= nextStartTimeRef
        (run decodeAudio_sample decodeAudioData_sample queueing started0)) /\
  (truthy_bool (interruptedFlag (audioMessage "AAAA" (Some true))) = true /\
   outputAudioContextRef playingA <> None /\
   decodes decodeAudio_sample decodeAudioData_sample
     (audioMessage "AAAA" (Some true)) playingA /\
   fst (onmessage decodeAudio_sample decodeAudioData_sample (quietAt (3 # 10))
          (audioMessage "AAAA" (Some true)) playingA) = Normal tt /\
   nextStartTimeRef
     (step decodeAudio_sample decodeAudioData_sample
        (OnMessage (quietAt (3 # 10)) (audioMessage "AAAA" (Some true))) playingA)
   = 3 # 10) /\
  (reachesContexts startEnv0 = true /\
   nextStartTimeRef
     (step decodeAudio_sample decodeAudioData_sample (StartMirror startEnv0)
        playingA)
   = 0).
Proof.
  pose proof (C7_cursor_invariant decodeAudio_sample decodeAudioData_sample)
    as [_ [_ [Hrun [Hint [Hstart _]]]]].
  split; [|split].
  - split; [reflexivity|]. exact (Hrun queueing started0 eq_refl).
  - assert (C : outputAudioContextRef playingA <> None)
      by (intros E; discriminate E).
    assert (D : decodes decodeAudio_sample decodeAudioData_sample
                  (audioMessage "AAAA" (Some true)) playingA).
    { vm_compute. eexists. eexists. split; reflexivity. }
    split; [reflexivity|]. split; [exact C|]. split; [exact D|].
    exact (Hint (quietAt (3 # 10)) (audioMessage "AAAA" (Some true)) playingA
             eq_refl C D).
  - split; [reflexivity|]. exact (Hstart startEnv0 playingA eq_refl).
Defined.

(** Two chunks queued back to back, then an interruption at t=0.00005,
    then a new start of the mirror: the cursor goes 0, 2/24000, 5/24000,
    0.00005, 0. *)
Example cursor_over_a_session :
  let go := run decodeAudio_sample decodeAudioData_sample in
  let w1 := go [OnMessage (quietAt 0) (audioMessage "AAAA" None)] started0 in
  let w2 := go [OnMessage (quietAt (1 # 100000)) (audioMessage "AAAAAA" None)] w1 in
  let w3 := go [OnMessage (quietAt (5 # 100000)) interruptMessage] w2 in
  let w4 := go [StopMirror; StartMirror startEnv0] w3 in
  map Qred [nextStartTimeRef started0; nextStartTimeRef w1; nextStartTimeRef w2;
            nextStartTimeRef w3; nextStartTimeRef w4]
  = [0; 1 # 12000; 1 # 4800; 1 # 20000; 0].
Proof. vm_compute. reflexivity. Qed.

(** ** The set of active sources *)

Lemma wellFormed_mounted : wellFormed mounted.
Proof.
  split.
  - intros c n [].
  - intros n [].
Qed.

Lemma wellFormed_frame (w w' : World) (l : list Call) :
  nextNode w' = nextNode w ->
  audioSourcesRef w' = audioSourcesRef w ->
  log w' = log w ++ l ->
  (forall c, In c l -> sourceOf c = None) ->
  wellFormed w -> wellFormed w'.
Proof.
  intros K S L F [W1 W2]. split.
  - intros c n Hc Hn. rewrite K. rewrite L in Hc.
    apply in_app_or in Hc. destruct Hc as [Hc|Hc].
    + exact (W1 c n Hc Hn).
    + rewrite (F c Hc) in Hn. discriminate Hn.
  - intros n Hn. rewrite S in Hn.
    destruct (W2 n Hn) as [[t St] [Li [Sp Co]]].
    unfold started, stopped, completed. rewrite L. repeat split.
    + exists t. apply in_or_app. left. exact St.
    + apply in_or_app. left. exact Li.
    + intros H. apply in_app_or in H. destruct H as [H|H]; [exact (Sp H)|].
      apply F in H. discriminate H.
    + intros H. apply in_app_or in H. destruct H as [H|H]; [exact (Co H)|].
      apply F in H. discriminate H.
Qed.

Lemma wellFormed_schedulePlayback env ctx buf (w : World) :
  wellFormed w -> wellFormed (snd (schedulePlayback env ctx buf w)).
Proof.
  intros [W1 W2]. split.
  - intros c n Hc Hn.
    rewrite schedulePlayback_nextNode. rewrite schedulePlayback_log in Hc.
    apply in_app_or in Hc. destruct Hc as [Hc|Hc].
    + apply Nat.lt_lt_succ_r. exact (W1 c n Hc Hn).
    + simpl in Hc.
      destruct Hc as [<-|[<-|[<-|[<-|[<-|[]]]]]]; simpl in Hn;
        injection Hn as <-; apply Nat.lt_succ_diag_r.
  - intros n Hn. rewrite schedulePlayback_sources in Hn.
    unfold started, stopped, completed. rewrite schedulePlayback_log.
    apply Set_add_In in Hn. destruct Hn as [->|Hn].
    + repeat split.
      * exists (startAt env w). apply in_or_app. right. simpl. tauto.
      * apply in_or_app. right. simpl. tauto.
      * intros H. apply in_app_or in H. destruct H as [H|H].
        -- exact (Nat.lt_irrefl _ (W1 _ _ H eq_refl)).
        -- simpl in H.
           destruct H as [H|[H|[H|[H|[H|[]]]]]]; discriminate H.
      * intros H. apply in_app_or in H. destruct H as [H|H].
        -- exact (Nat.lt_irrefl _ (W1 _ _ H eq_refl)).
        -- simpl in H.
           destruct H as [H|[H|[H|[H|[H|[]]]]]]; discriminate H.
    + destruct (W2 n Hn) as [[t St] [Li [Sp Co]]]. repeat split.
      * exists t. apply in_or_app. left. exact St.
      * apply in_or_app. left. exact Li.
      * intros H. apply in_app_or in H. destruct H as [H|H]; [exact (Sp H)|].
        simpl in H. destruct H as [H|[H|[H|[H|[H|[]]]]]]; discriminate H.
      * intros H. apply in_app_or in H. destruct H as [H|H]; [exact (Co H)|].
        simpl in H. destruct H as [H|[H|[H|[H|[H|[]]]]]]; discriminate H.
Qed.

Lemma handleInterruptions_on_parts env message w :
  truthy_bool (interruptedFlag message) = true ->
  let w' := snd (handleInterruptions env message w) in
  nextNode w' = nextNode w /\
  audioSourcesRef w' = [] /\
  log w' = log w ++ map SourceStop (audioSourcesRef w).
Proof.
  intros F. cbv zeta. rewrite (handleInterruptions_on env message w F).
  cbn [snd]. destruct (outputAudioContextRef w); repeat split.
Qed.

Lemma wellFormed_handleInterruptions env message (w : World) :
  wellFormed w -> wellFormed (snd (handleInterruptions env message w)).
Proof.
  intros W. destruct (truthy_bool (interruptedFlag message)) eqn:F.
  2:{ rewrite handleInterruptions_off by exact F. exact W. }
  destruct (handleInterruptions_on_parts env message w F) as [K [S L]].
  destruct W as [W1 W2]. split.
  - intros c n Hc Hn. rewrite K. rewrite L in Hc.
    apply in_app_or in Hc. destruct Hc as [Hc|Hc].
    + exact (W1 c n Hc Hn).
    + apply in_map_iff in Hc. destruct Hc as [m [<- Hm]].
      simpl in Hn. injection Hn as <-.
      destruct (W2 m Hm) as [[t St] _]. exact (W1 _ _ St eq_refl).
  - intros n Hn. rewrite S in Hn. destruct Hn.
Qed.

Lemma Set_delete_In (n x : SourceNode) (s : list SourceNode) :
  In x (Set_delete n s) <-> In x s /\ x <> n.
Proof.
  unfold Set_delete. rewrite filter_In. split.
  - intros [H E]. split; [exact H|]. intros ->.
    rewrite Nat.eqb_refl in E. discriminate E.
  - intros [H E]. split; [exact H|].
    destruct (Nat.eqb n x) eqn:Q; [|reflexivity].
    apply Nat.eqb_eq in Q. congruence.
Qed.

Lemma isListener_registered (n : SourceNode) (l : list Call) :
  existsb (isListener n) l = true <-> In (AddEndedListener n) l.
Proof.
  rewrite existsb_exists. split.
  - intros [c [Hc E]]. destruct c; try discriminate E.
    simpl in E. apply Nat.eqb_eq in E. subst. exact Hc.
  - intros H. exists (AddEndedListener n). split; [exact H|].
    simpl. apply Nat.eqb_refl.
Qed.

Lemma deliverEnded_listening (source : SourceNode) (w : World) :
  In (AddEndedListener source) (log w) ->
  deliverEnded source w
  = (Normal tt,
     set_audioSourcesRef (Set_delete source (audioSourcesRef w))
       (set_log (log w ++ [EndedDelivered source]) w)).
Proof.
  intros H. apply isListener_registered in H.
  unfold deliverEnded, bind, read. rewrite H. reflexivity.
Qed.

Lemma deliverEnded_deaf (source : SourceNode) (w : World) :
  ~ In (AddEndedListener source) (log w) ->
  deliverEnded source w = (Normal tt, w).
Proof.
  intros H. unfold deliverEnded, bind, read.
  destruct (existsb (isListener source) (log w)) eqn:E; [|reflexivity].
  apply isListener_registered in E. contradiction.
Qed.

Lemma wellFormed_deliverEnded (source : SourceNode) (w : World) :
  wellFormed w -> wellFormed (snd (deliverEnded source w)).
Proof.
  intros W.
  destruct (existsb (isListener source) (log w)) eqn:H.
  2:{ rewrite deliverEnded_deaf; [exact W|].
      intros I. apply isListener_registered in I. congruence. }
  apply isListener_registered in H.
  rewrite (deliverEnded_listening source w H). cbn [snd].
  destruct W as [W1 W2]. split.
  - intros c n Hc Hn. simpl in Hc |- *.
    apply in_app_or in Hc. destruct Hc as [Hc|[<-|[]]].
    + exact (W1 c n Hc Hn).
    + simpl in Hn. injection Hn as <-. exact (W1 _ _ H eq_refl).
  - intros n Hn. simpl in Hn. apply Set_delete_In in Hn.
    destruct Hn as [Hn Ne].
    destruct (W2 n Hn) as [[t St] [Li [Sp Co]]].
    unfold started, stopped, completed. simpl. repeat split.
    + exists t. apply in_or_app. left. exact St.
    + apply in_or_app. left. exact Li.
    + intros E. apply in_app_or in E. destruct E as [E|[E|[]]];
        [exact (Sp E)|discriminate E].
    + intros E. apply in_app_or in E. destruct E as [E|[E|[]]];
        [exact (Co E)|]. injection E as E. congruence.
Qed.

Lemma startMirror_parts (env : StartEnv) (w : World) :
  let w' := snd (startMirror env w) in
  nextNode w' = nextNode w /\
  audioSourcesRef w' = audioSourcesRef w /\
  exists l, log w' = log w ++ l /\ forall c, In c l -> sourceOf c = None.
Proof.
  cbv zeta. destruct (reachesContexts env) eqn:R.
  - split; [|split].
    + revert R. unfold reachesContexts, startMirror, tryCatch, bind.
      destruct env as [[e|stream] [|] [e'|u] ic oc t s id]; simpl;
        intros H; try discriminate H; reflexivity.
    + revert R. unfold reachesContexts, startMirror, tryCatch, bind.
      destruct env as [[e|stream] [|] [e'|u] ic oc t s id]; simpl;
        intros H; try discriminate H; reflexivity.
    + exists [LiveConnect (liveConnect env); SetInterval 500 (setIntervalId env)].
      split.
      * revert R. unfold reachesContexts, startMirror, tryCatch, bind.
        destruct env as [[e|stream] [|] [e'|u] ic oc t s id]; simpl;
          intros H; try discriminate H; rewrite <- app_assoc; reflexivity.
      * intros c [<-|[<-|[]]]; reflexivity.
  - split; [|split].
    + revert R. unfold reachesContexts, startMirror, tryCatch, bind.
      destruct env as [[e|stream] [|] [e'|u] ic oc t s id]; simpl;
        intros H; try discriminate H; reflexivity.
    + revert R. unfold reachesContexts, startMirror, tryCatch, bind.
      destruct env as [[e|stream] [|] [e'|u] ic oc t s id]; simpl;
        intros H; try discriminate H; reflexivity.
    + exists []. split; [|intros c []].
      revert R. unfold reachesContexts, startMirror, tryCatch, bind.
      destruct env as [[e|stream] [|] [e'|u] ic oc t s id]; simpl;
        intros H; try discriminate H; rewrite app_nil_r; reflexivity.
Qed.

Lemma wellFormed_visualizationHook env (w : World) :
  wellFormed w -> wellFormed (snd (visualizationHook env w)).
Proof.
  apply wellFormed_frame with (l := [SetTimeout 200]);
    [reflexivity|reflexivity|reflexivity|].
  intros c [<-|[]]. reflexivity.
Qed.

(** The worlds the audio branch can leave behind. *)
Lemma handleAudioOutput_worlds dA dAD env message w :
  let w1 := snd (handleAudioOutput dA dAD env message w) in
  w1 = w \/
  w1 = snd (visualizationHook env w) \/
  exists ctx buf,
    w1 = snd (schedulePlayback env ctx buf (snd (visualizationHook env w))).
Proof.
  cbv zeta.
  destruct (truthy_string (base64Audio message)) as [base64|] eqn:A.
  2:{ rewrite (handleAudioOutput_no_audio dA dAD env message w A). left. reflexivity. }
  destruct (outputAudioContextRef w) as [ctx|] eqn:C.
  2:{ rewrite (handleAudioOutput_no_context dA dAD env message w A C).
      left. reflexivity. }
  destruct (dA base64) as [e|bytes] eqn:D1.
  { rewrite (handleAudioOutput_decode_fails dA dAD env message w A C (e := e))
      by (left; exact D1).
    right. left. reflexivity. }
  destruct (dAD bytes ctx 24000%Z 1%Z) as [e|buf] eqn:D2.
  { rewrite (handleAudioOutput_decode_fails dA dAD env message w A C (e := e))
      by (right; exists bytes; split; assumption).
    right. left. reflexivity. }
  rewrite (handleAudioOutput_scheduled dA dAD env message w A C D1 D2).
  right. right. exists ctx, buf. reflexivity.
Qed.

Lemma wellFormed_handleAudioOutput dA dAD env message (w : World) :
  wellFormed w -> wellFormed (snd (handleAudioOutput dA dAD env message w)).
Proof.
  intros W.
  destruct (handleAudioOutput_worlds dA dAD env message w)
    as [E|[E|[ctx [buf E]]]]; rewrite E.
  - exact W.
  - apply wellFormed_visualizationHook, W.
  - apply wellFormed_schedulePlayback, wellFormed_visualizationHook, W.
Qed.

Lemma handleAudioOutput_keeps_sources dA dAD env message (w : World) (n : SourceNode) :
  In n (audioSourcesRef w) ->
  In n (audioSourcesRef (snd (handleAudioOutput dA dAD env message w))).
Proof.
  intros H.
  destruct (handleAudioOutput_worlds dA dAD env message w)
    as [E|[E|[ctx [buf E]]]]; rewrite E.
  - exact H.
  - exact H.
  - rewrite schedulePlayback_sources. apply Set_add_In. right. exact H.
Qed.

Lemma wellFormed_step dA dAD (op : Op) (w : World) :
  wellFormed w -> wellFormed (step dA dAD op w).
Proof.
  intros W. destruct op as [env|sess|env message|source|]; unfold step, perform.
  - destruct (startMirror_parts env w) as [K [S [l [L F]]]].
    exact (@wellFormed_frame w _ l K S L F W).
  - apply wellFormed_frame with (w := w) (l := []);
      [reflexivity|reflexivity| |intros c []|exact W].
    simpl. rewrite app_nil_r. reflexivity.
  - rewrite onmessage_unfold.
    pose proof (wellFormed_handleAudioOutput dA dAD env message W) as W1.
    destruct (handleAudioOutput dA dAD env message w) as [[[|]|e] w1];
      cbn [snd] in *; try exact W1.
    apply wellFormed_handleInterruptions, W1.
  - apply wellFormed_deliverEnded, W.
  - rewrite stopMirror_spec.
    apply wellFormed_frame with (w := w) (l := teardownCalls w);
      [reflexivity|reflexivity|reflexivity| |exact W].
    intros c H. unfold teardownCalls in H.
    repeat (apply in_app_or in H; destruct H as [H|H]).
    + destruct (streamRef w) as [s|]; [|destruct H].
      apply in_map_iff in H. destruct H as [t [<- _]]. reflexivity.
    + destruct (inputAudioContextRef w); [|destruct H].
      destruct H as [<-|[]]. reflexivity.
    + destruct (outputAudioContextRef w); [|destruct H].
      destruct H as [<-|[]]. reflexivity.
    + destruct (truthy_id (videoIntervalRef w)); [|destruct H].
      destruct H as [<-|[]]. reflexivity.
Qed.

Lemma wellFormed_run dA dAD (ops : list Op) :
  forall w, wellFormed w -> wellFormed (run dA dAD ops w).
Proof.
  induction ops as [|op rest IH]; intros w W; [exact W|].
  simpl. apply IH, wellFormed_step, W.
Qed.

Lemma step_removes_source dA dAD (op : Op) (w : World) (n : SourceNode) :
  In n (audioSourcesRef w) ->
  ~ In n (audioSourcesRef (step dA dAD op w)) ->
  op = OnEnded n \/
  exists env message,
    op = OnMessage env message /\ truthy_bool (interruptedFlag message) = true.
Proof.
  intros H G. destruct op as [env|sess|env message|source|];
    unfold step, perform in G.
  - exfalso. apply G.
    rewrite (proj1 (proj2 (startMirror_parts env w))). exact H.
  - exfalso. apply G. exact H.
  - destruct (truthy_bool (interruptedFlag message)) eqn:F.
    { right. exists env, message. split; [reflexivity|exact F]. }
    exfalso. apply G. rewrite onmessage_unfold.
    pose proof (handleAudioOutput_keeps_sources dA dAD env message w n H) as H1.
    destruct (handleAudioOutput dA dAD env message w) as [[[|]|e] w1];
      cbn [snd] in *; try exact H1.
    rewrite handleInterruptions_off by exact F. exact H1.
  - destruct (Nat.eq_dec n source) as [->|Ne]; [left; reflexivity|].
    exfalso. apply G.
    destruct (existsb (isListener source) (log w)) eqn:E.
    + apply isListener_registered in E.
      rewrite (deliverEnded_listening source w E). cbn [snd]. simpl.
      apply Set_delete_In. split; assumption.
    + rewrite deliverEnded_deaf; [exact H|].
      intros I. apply isListener_registered in I. congruence.
  - exfalso. apply G. rewrite stopMirror_spec. exact H.
Qed.

(** C8, as stated, fails: after the text message handled at t=0.0001 the
    set still holds source 0, which was started at 0 with a buffer of 2
    frames and so has played to its end by then; its completion callback
    has not run yet. *)
Lemma C8_played_out_source_still_in_set :
  let w := run decodeAudio_sample decodeAudioData_sample lateCallback mounted in
  audioSourcesRef w = [0%nat] /\
  map (fun s => (fst s, Qred (snd s))) (startsOf (log w)) = [(0%nat, 0)] /\
  playedOut (1 # 10000) 0%nat (log w) = true /\
  ~ (forall n, In n (audioSourcesRef w) ->
       playedOut (1 # 10000) n (log w) = false).
Proof.
  cbv zeta.
  set (w := run decodeAudio_sample decodeAudioData_sample lateCallback mounted).
  assert (S : audioSourcesRef w = [0%nat]) by (vm_compute; reflexivity).
  assert (P : playedOut (1 # 10000) 0%nat (log w) = true)
    by (vm_compute; reflexivity).
  split; [exact S|]. split; [vm_compute; reflexivity|]. split; [exact P|].
  intros H. rewrite S in H. specialize (H 0%nat (or_introl eq_refl)).
  rewrite P in H. discriminate H.
Qed.

(** C8, amended.  In every world the component reaches from its mount,
    every source in the set has been started, has not been stopped, and
    its completion callback has not run.  A source leaves the set only
    when its completion callback runs or when the handler takes a message
    with the interruption flag; the callback of a source in the set does
    remove it, and an interruption processed with an output context in
    place empties the set. *)
Theorem C8_active_sources_invariant
    (dA : string -> Exn + list byte)
    (dAD : list byte -> AudioContext -> Z -> Z -> Exn + AudioBuffer)
    (ops : list Op) :
  let w := run dA dAD ops mounted in
  (forall n, In n (audioSourcesRef w) ->
     started n w /\ ~ stopped n w /\ ~ completed n w) /\
  (forall op n,
     In n (audioSourcesRef w) ->
     ~ In n (audioSourcesRef (step dA dAD op w)) ->
     op = OnEnded n \/
     exists env message,
       op = OnMessage env message /\
       truthy_bool (interruptedFlag message) = true) /\
  (forall n,
     In n (audioSourcesRef w) ->
     ~ In n (audioSourcesRef (step dA dAD (OnEnded n) w)) /\
     completed n (step dA dAD (OnEnded n) w)) /\
  (forall env message,
     truthy_bool (interruptedFlag message) = true ->
     outputAudioContextRef w <> None ->
     fst (onmessage dA dAD env message w) = Normal tt ->
     audioSourcesRef (step dA dAD (OnMessage env message) w) = []).
Proof.
  cbv zeta. set (w := run dA dAD ops mounted).
  assert (W : wellFormed w) by apply wellFormed_run, wellFormed_mounted.
  split; [|split; [|split]].
  - intros n Hn. destruct (proj2 W n Hn) as [St [_ [Sp Co]]]. auto.
  - intros op n. apply step_removes_source.
  - intros n Hn. destruct (proj2 W n Hn) as [_ [Li _]].
    unfold step, perform, completed.
    rewrite (deliverEnded_listening n w Li). cbn [snd]. simpl. split.
    + intros H. apply Set_delete_In in H. destruct H as [_ H]. apply H. reflexivity.
    + apply in_or_app. right. left. reflexivity.
  - intros env message F C N.
    destruct (outputAudioContextRef w) as [ctx|] eqn:E; [|contradiction].
    exact (proj1 (onmessage_interrupted dA dAD env message w F E N)).
Qed.

Lemma C8_active_sources_invariant_witness :
  let w := run decodeAudio_sample decodeAudioData_sample
             (StartMirror startEnv0 :: queueing) mounted in
  In 1%nat (audioSourcesRef w) /\
  (started 1%nat w /\ ~ stopped 1%nat w /\ ~ completed 1%nat w).
Proof.
  cbv zeta. assert (H : In 1%nat (audioSourcesRef
    (run decodeAudio_sample decodeAudioData_sample
       (StartMirror startEnv0 :: queueing) mounted))).
  { vm_compute. left. reflexivity. }
  split; [exact H|].
  exact (proj1 (C8_active_sources_invariant decodeAudio_sample
                  decodeAudioData_sample (StartMirror startEnv0 :: queueing))
           1%nat H).
Defined.

(** * Further properties *)

(** ** Chunks that arrive at any time *)

Lemma scheduleAllWith_startTimes plus durationOf ctx chunks :
  forall w,
    startTimes (log (snd (scheduleAllWith plus durationOf ctx chunks w)))
    = startTimes (log w)
      ++ startsFromWith plus durationOf (nextStartTimeRef w) chunks.
Proof.
  induction chunks as [|[env buf] rest IH]; intros w.
  - simpl. rewrite app_nil_r. reflexivity.
  - rewrite scheduleAllWith_cons, IH.
    rewrite schedulePlaybackWith_log, schedulePlaybackWith_cursor,
      startTimes_app.
    rewrite <- app_assoc. reflexivity.
Qed.

Lemma startsFromWith_length plus durationOf (chunks : list (Env * AudioBuffer)) :
  forall cursor,
    List.length (startsFromWith plus durationOf cursor chunks)
    = List.length chunks.
Proof.
  induction chunks as [|[env buf] rest IH]; intros cursor; [reflexivity|].
  simpl. rewrite IH. reflexivity.
Qed.

Lemma startsFromWith_next plus durationOf (chunks : list (Env * AudioBuffer)) :
  forall cursor i s env buf env' buf',
    nth_error (startsFromWith plus durationOf cursor chunks) i = Some s ->
    nth_error chunks i = Some (env, buf) ->
    nth_error chunks (S i) = Some (env', buf') ->
    nth_error (startsFromWith plus durationOf cursor chunks) (S i)
    = Some (Math_max (plus s (durationOf buf)) (currentTime env')).
Proof.
  induction chunks as [|[env0 buf0] rest IH];
    intros cursor i s env buf env' buf' Hs Hc Hn.
  - destruct i; discriminate Hc.
  - destruct i as [|i].
    + simpl in Hs, Hc. injection Hs as <-. injection Hc as <- <-.
      destruct rest as [|[env1 buf1] rest]; [discriminate Hn|].
      simpl in Hn. injection Hn as <- <-. reflexivity.
    + exact (IH _ i s env buf env' buf' Hs Hc Hn).
Qed.

Lemma startsFromWith_arrival plus durationOf (chunks : list (Env * AudioBuffer)) :
  forall cursor i env buf s,
    nth_error chunks i = Some (env, buf) ->
    nth_error (startsFromWith plus durationOf cursor chunks) i = Some s ->
    currentTime env <= s.
Proof.
  induction chunks as [|[env0 buf0] rest IH]; intros cursor i env buf s Hc Hs.
  - destruct i; discriminate Hc.
  - destruct i as [|i]; simpl in Hc, Hs.
    + injection Hc as -> ->. injection Hs as <-. apply Math_max_ge_r.
    + exact (IH _ _ _ _ _ Hc Hs).
Qed.

(** X1.  Whatever the arrival times and whatever sum and duration the
    platform computes, a sequence of chunks adds one start per chunk: the
    first chunk starts at the larger of the cursor and the clock time of
    its arrival, and each next one at the larger of the cursor its
    predecessor left, which is the predecessor's start time plus its
    duration, and the clock time of its own arrival.  So no chunk starts
    before the clock time of its arrival, nor before the cursor that the
    chunk before it left. *)
Theorem X1_start_is_cursor_or_arrival
    (plus : Q -> Q -> Q) (durationOf : AudioBuffer -> Q)
    (ctx : AudioContext) (chunks : list (Env * AudioBuffer)) (w : World) :
  let w' := snd (scheduleAllWith plus durationOf ctx chunks w) in
  List.length (newStarts w w') = List.length chunks /\
  (forall env buf,
     nth_error chunks 0 = Some (env, buf) ->
     nth_error (newStarts w w') 0
     = Some (Math_max (nextStartTimeRef w) (currentTime env))) /\
  (forall i s env buf env' buf',
     nth_error (newStarts w w') i = Some s ->
     nth_error chunks i = Some (env, buf) ->
     nth_error chunks (S i) = Some (env', buf') ->
     nth_error (newStarts w w') (S i)
     = Some (Math_max (plus s (durationOf buf)) (currentTime env')) /\
     plus s (durationOf buf)
     <= Math_max (plus s (durationOf buf)) (currentTime env')) /\
  (forall i env buf s,
     nth_error chunks i = Some (env, buf) ->
     nth_error (newStarts w w') i = Some s ->
     currentTime env <= s).
Proof.
  cbv zeta.
  rewrite (@newStarts_app w _ _
             (scheduleAllWith_startTimes plus durationOf ctx chunks w)).
  split; [apply startsFromWith_length|]. split; [|split].
  - intros env buf Hc. destruct chunks as [|[env0 buf0] rest];
      [discriminate Hc|].
    simpl in Hc. injection Hc as -> ->. reflexivity.
  - intros i s env buf env' buf' Hs Hc Hn. split.
    + exact (startsFromWith_next plus durationOf chunks _ i Hs Hc Hn).
    + apply Math_max_ge_l.
  - intros i env buf s. apply startsFromWith_arrival.
Qed.

(** Three chunks in binary64, the third one late: starts at 0, 1 and 2;
    cursor 2.5. *)
Example three_chunks_one_late :
  let w' := snd (scheduleAllWith plus64 duration64 outputCtx0 threeChunks
                   started0) in
  map Qred (newStarts started0 w') = [0; 1; 2] /\
  Qred (nextStartTimeRef w') = 5 # 2.
Proof. vm_compute. split; reflexivity. Qed.

Lemma scheduleAllWith_cursor_in_time plus durationOf ctx
    (chunks : list (Env * AudioBuffer)) :
  forall w,
    arriveInTimeWith plus durationOf ctx chunks w ->
    nextStartTimeRef (snd (scheduleAllWith plus durationOf ctx chunks w))
    = addDurations plus durationOf (nextStartTimeRef w) (map snd chunks).
Proof.
  induction chunks as [|[env buf] rest IH]; intros w H; [reflexivity|].
  destruct H as [Hnow Hrest].
  rewrite scheduleAllWith_cons, (IH _ Hrest), schedulePlaybackWith_cursor.
  unfold startAt. rewrite (Math_max_early Hnow). reflexivity.
Qed.

(** X2.  When every chunk of a sequence arrives no later than the cursor it
    finds, the cursor ends at what the platform's sum gives when the
    durations of the chunks are added to the cursor one after the other,
    in the order of arrival: with binary64, three chunks of 0.1 s from 0
    leave the cursor at 0.30000000000000004. *)
Theorem X2_in_time_cursor_adds_durations
    (plus : Q -> Q -> Q) (durationOf : AudioBuffer -> Q)
    (ctx : AudioContext) (chunks : list (Env * AudioBuffer)) (w : World) :
  arriveInTimeWith plus durationOf ctx chunks w ->
  nextStartTimeRef (snd (scheduleAllWith plus durationOf ctx chunks w))
  = addDurations plus durationOf (nextStartTimeRef w) (map snd chunks).
Proof.
  apply scheduleAllWith_cursor_in_time.
Qed.

Lemma X2_in_time_cursor_adds_durations_witness :
  arriveInTimeWith plus64 duration64 outputCtx0 tenths started0 /\
  nextStartTimeRef (snd (scheduleAllWith plus64 duration64 outputCtx0 tenths started0))
  = addDurations plus64 duration64 (nextStartTimeRef started0) (map snd tenths).
Proof.
  assert (H : arriveInTimeWith plus64 duration64 outputCtx0 tenths started0).
  { vm_compute. repeat split; intros E; discriminate E. }
  split; [exact H|].
  exact (X2_in_time_cursor_adds_durations plus64 duration64 outputCtx0 tenths
           started0 H).
Defined.

(** Three chunks of 0.1 s that arrive together, in binary64: the cursor
    ends at 0.30000000000000004, one unit in the last place above the
    binary64 value nearest to 3/10. *)
Example three_tenths_in_binary64 :
  let chunks := [(quietAt 0, chunkTenth); (quietAt 0, chunkTenth);
                 (quietAt 0, chunkTenth)] in
  nextStartTimeRef
    (snd (scheduleAllWith plus64 duration64 outputCtx0 chunks started0))
  = 5404319552844596 # 18014398509481984 /\
  Q_of_binary64 (binary64_of_Q (3 # 10))
  = 5404319552844595 # 18014398509481984.
Proof. vm_compute. split; reflexivity. Qed.

(** ** A chunk and an interruption in one message *)

(** X3.  When one message carries both a chunk that decodes and the
    interruption flag, the handler schedules the chunk and then interrupts
    it in the same run: the new source is started and stopped, together
    with every source that was in the set, the set ends empty, and the
    cursor is the clock time read at the interruption, not the end of the
    chunk. *)
Theorem X3_chunk_and_interruption_together
    (dA : string -> Exn + list byte)
    (dAD : list byte -> AudioContext -> Z -> Z -> Exn + AudioBuffer)
    (env : Env) (message : LiveServerMessage) (w : World)
    (base64 : string) (ctx : AudioContext) (bytes : list byte) (buf : AudioBuffer) :
  truthy_string (base64Audio message) = Some base64 ->
  truthy_bool (interruptedFlag message) = true ->
  outputAudioContextRef w = Some ctx ->
  dA base64 = inr bytes ->
  dAD bytes ctx 24000%Z 1%Z = inr buf ->
  let w' := snd (onmessage dA dAD env message w) in
  fst (onmessage dA dAD env message w) = Normal tt /\
  audioSourcesRef w' = [] /\
  nextStartTimeRef w' = currentTimeAtInterrupt env /\
  log w' = log w
           ++ [SetTimeout 200;
               CreateBufferSource ctx (nextNode w);
               SetBuffer (nextNode w) buf;
               Connect (nextNode w) ctx;
               AddEndedListener (nextNode w);
               SourceStart (nextNode w)
                 (Math_max (nextStartTimeRef w) (currentTime env))]
           ++ map SourceStop (Set_add (nextNode w) (audioSourcesRef w)).
Proof.
  intros A F C D1 D2. cbv zeta. rewrite onmessage_unfold.
  rewrite (handleAudioOutput_scheduled dA dAD env message w A C D1 D2).
  rewrite handleInterruptions_on by exact F. cbv zeta. cbn [fst snd].
  rewrite schedulePlayback_context, schedulePlayback_sources,
    schedulePlayback_log.
  assert (Cv : outputAudioContextRef (snd (visualizationHook env w)) = Some ctx)
    by exact C.
  rewrite Cv. simpl. repeat split.
  repeat rewrite <- app_assoc. reflexivity.
Qed.

Lemma X3_chunk_and_interruption_together_witness :
  let message := audioMessage "AAAA" (Some true) in
  truthy_string (base64Audio message) = Some "AAAA"%string /\
  truthy_bool (interruptedFlag message) = true /\
  outputAudioContextRef playingA = Some outputCtx0 /\
  audioSourcesRef
    (snd (onmessage decodeAudio_sample decodeAudioData_sample
            (quietAt (3 # 10)) message playingA)) = [].
Proof.
  cbv zeta. split; [reflexivity|]. split; [reflexivity|]. split; [reflexivity|].
  exact (proj1 (proj2
    (X3_chunk_and_interruption_together decodeAudio_sample
       decodeAudioData_sample (quietAt (3 # 10))
       (audioMessage "AAAA" (Some true)) playingA
       (base64 := "AAAA") (ctx := outputCtx0)
       eq_refl eq_refl eq_refl eq_refl eq_refl))).
Defined.

(** ** Turns of more than one part *)

Lemma base64Audio_first_part (p : Part) (ps : list Part) (flag : option bool) :
  truthy_string (base64Audio (turnMessage (p :: ps) flag)) = partAudio p.
Proof. reflexivity. Qed.

(** X4.  The handler reads the first part of a model turn only.  When the
    first part has no inline data, or empty inline data, and the message
    has no interruption flag, the handler changes nothing, whatever the
    other parts of the turn carry; and in every case the parts after the
    first make no difference to what the handler does. *)
Theorem X4_only_the_first_part_is_played
    (dA : string -> Exn + list byte)
    (dAD : list byte -> AudioContext -> Z -> Z -> Exn + AudioBuffer)
    (env : Env) (p : Part) (ps : list Part) (flag : option bool) (w : World) :
  partAudio p = None ->
  truthy_bool flag = false ->
  onmessage dA dAD env (turnMessage (p :: ps) flag) w = (Normal tt, w) /\
  forall p' ps' flag' w',
    onmessage dA dAD env (turnMessage (p' :: ps') flag') w'
    = onmessage dA dAD env (turnMessage [p'] flag') w'.
Proof.
  intros A F. split.
  - rewrite onmessage_unfold.
    rewrite (handleAudioOutput_no_audio dA dAD env
               (turnMessage (p :: ps) flag) w); [|exact A].
    apply handleInterruptions_off. exact F.
  - intros p' ps' flag' w'. reflexivity.
Qed.

Lemma X4_only_the_first_part_is_played_witness :
  hasInlineAudio audioInSecondPart = true /\
  partAudio (mkPart None) = None /\
  truthy_bool None = false /\
  onmessage decodeAudio_sample decodeAudioData_sample (quietAt 1)
    audioInSecondPart playingA = (Normal tt, playingA).
Proof.
  split; [reflexivity|]. split; [reflexivity|]. split; [reflexivity|].
  exact (proj1 (X4_only_the_first_part_is_played decodeAudio_sample
                  decodeAudioData_sample (quietAt 1) (mkPart None)
                  [mkPart (Some (mkBlob (Some "AAAA"%string)))] None playingA
                  eq_refl eq_refl)).
Defined.

(** ** Starts that fail, and what a stop gives back *)

(** X5.  A start that fails before the audio contexts exist, because
    [getUserMedia] or [play()] rejects, makes no call at all and ends
    normally in state [ERROR]: contexts, cursor, set, session and interval
    refs are as before.  When it was [play()] that rejected, the stream
    just acquired stays in [streamRef] and none of its tracks is stopped. *)
Theorem X5_failed_start_changes_little (env : StartEnv) (w : World) :
  reachesContexts env = false ->
  let w' := snd (startMirror env w) in
  fst (startMirror env w) = Normal tt /\
  appState w' = ERROR /\
  log w' = log w /\
  streamRef w' = match getUserMedia env with
                 | inr stream => Some stream
                 | inl _ => streamRef w
                 end /\
  inputAudioContextRef w' = inputAudioContextRef w /\
  outputAudioContextRef w' = outputAudioContextRef w /\
  nextStartTimeRef w' = nextStartTimeRef w /\
  audioSourcesRef w' = audioSourcesRef w /\
  sessionPromiseRef w' = sessionPromiseRef w /\
  videoIntervalRef w' = videoIntervalRef w.
Proof.
  unfold reachesContexts, startMirror, tryCatch, bind.
  destruct env as [[e|stream] [|] [e'|u] ic oc t s id]; simpl;
    intros H; try discriminate H; repeat split.
Qed.

Lemma X5_failed_start_changes_little_witness :
  reachesContexts startEnvNoPlay = false /\
  streamRef (snd (startMirror startEnvNoPlay mounted))
  = Some (mkStream [0%nat; 1%nat]) /\
  log (snd (startMirror startEnvNoPlay mounted)) = [].
Proof.
  split; [reflexivity|].
  pose proof (X5_failed_start_changes_little startEnvNoPlay mounted eq_refl) as H.
  cbv zeta in H. split.
  - exact (proj1 (proj2 (proj2 (proj2 H)))).
  - exact (proj1 (proj2 (proj2 H))).
Defined.

Lemma startMirror_succeeds (env : StartEnv) (w : World) (stream : MediaStream) :
  reachesContexts env = true ->
  getUserMedia env = inr stream ->
  startMirror env w
  = (Normal tt,
     mkWorld (Some stream) (Some (newInputContext env))
       (Some (newOutputContext env)) (outputCurrentTime env)
       (audioSourcesRef w) (Some (liveConnect env)) (activeSessionRef w)
       (Some (setIntervalId env)) CONNECTING (volumeLevel w) (nextNode w)
       (log w ++ [LiveConnect (liveConnect env);
                  SetInterval 500 (setIntervalId env)])).
Proof.
  unfold reachesContexts, startMirror, tryCatch, bind.
  destruct env as [[e|stream'] [|] [e'|u] ic oc t s id]; simpl;
    intros H G; try discriminate H; try discriminate G;
    injection G as ->; rewrite <- app_assoc; reflexivity.
Qed.

(** X6.  A stop after a successful start gives back what the start took,
    and only that: it stops every track of the stream the start acquired,
    closes the two contexts the start created and clears the interval the
    start set, in this order, and makes no other call.  The session the
    start connected gets no call, the two context refs still hold the
    closed contexts, and the state is [IDLE]. *)
Theorem X6_stop_releases_what_start_acquired
    (env : StartEnv) (w : World) (stream : MediaStream) :
  reachesContexts env = true ->
  getUserMedia env = inr stream ->
  setIntervalId env <> 0%Z ->
  let w' := snd (stopMirror (snd (startMirror env w))) in
  log w' = log w
           ++ [LiveConnect (liveConnect env); SetInterval 500 (setIntervalId env)]
           ++ map TrackStop (getTracks stream)
           ++ [ContextClose (newInputContext env);
               ContextClose (newOutputContext env);
               ClearInterval (setIntervalId env)] /\
  streamRef w' = None /\
  inputAudioContextRef w' = Some (newInputContext env) /\
  outputAudioContextRef w' = Some (newOutputContext env) /\
  sessionPromiseRef w' = Some (liveConnect env) /\
  appState w' = IDLE.
Proof.
  intros R G I. cbv zeta.
  rewrite (startMirror_succeeds env w R G), stopMirror_spec. cbn [snd].
  unfold teardownCalls. simpl.
  destruct (Z.eqb (setIntervalId env) 0) eqn:E.
  - apply Z.eqb_eq in E. contradiction.
  - repeat split. repeat rewrite <- app_assoc. reflexivity.
Qed.

Lemma X6_stop_releases_what_start_acquired_witness :
  reachesContexts startEnv0 = true /\
  getUserMedia startEnv0 = inr (mkStream [0%nat; 1%nat]) /\
  setIntervalId startEnv0 <> 0%Z /\
  appState (snd (stopMirror (snd (startMirror startEnv0 mounted)))) = IDLE.
Proof.
  assert (I : setIntervalId startEnv0 <> 0%Z) by (intros H; discriminate H).
  split; [reflexivity|]. split; [reflexivity|]. split; [exact I|].
  exact (proj2 (proj2 (proj2 (proj2 (proj2
    (X6_stop_releases_what_start_acquired startEnv0 mounted
       (stream := mkStream [0%nat; 1%nat]) eq_refl eq_refl I)))))).
Defined.

(** X7.  A second stop right after a stop stops no track, the stream ref
    being null by then, but calls [close()] again on each context whose ref
    is set and [clearInterval] again on the interval: refs and state are as
    the first stop left them, and only the log grows. *)
Theorem X7_second_stop_repeats_close (w : World) :
  let w1 := snd (stopMirror w) in
  stopMirror w1
  = (Normal tt,
     set_log (log w1
              ++ match inputAudioContextRef w with
                 | Some c => [ContextClose c]
                 | None => []
                 end
              ++ match outputAudioContextRef w with
                 | Some c => [ContextClose c]
                 | None => []
                 end
              ++ match truthy_id (videoIntervalRef w) with
                 | Some id => [ClearInterval id]
                 | None => []
                 end) w1).
Proof.
  cbv zeta. rewrite (stopMirror_spec (snd (stopMirror w))).
  rewrite stopMirror_spec. reflexivity.
Qed.

(** ** The other callbacks *)

(** X8.  [onerror] leaves the component exactly as [stopMirror] does: the
    state [ERROR] it sets first is overwritten by the [IDLE] of the stop,
    so a session error never ends in the error state. *)
Theorem X8_onerror_ends_idle (w : World) :
  onerror w = stopMirror w /\ appState (snd (onerror w)) = IDLE.
Proof.
  assert (E : onerror w = stopMirror w).
  { unfold onerror, bind, modify.
    rewrite (stopMirror_spec (set_appState ERROR w)), stopMirror_spec.
    reflexivity. }
  split; [exact E|]. rewrite E, stopMirror_spec. reflexivity.
Qed.

(** X9.  The callbacks of a session see the state of the render that
    started it, and [startMirror] is the click handler of a button that
    only a render in state [IDLE] shows.  With that state, a tick of the
    video loop sends no frame and changes nothing, whatever the refs and
    the canvas are, and [onclose] does not stop the mirror. *)
Theorem X9_callbacks_of_an_idle_render
    (rendered : AppState) (env : FrameEnv) (w : World) :
  awakenButtonShown rendered = true ->
  videoFrame rendered env w = (Normal tt, w) /\
  onclose rendered w = (Normal tt, w).
Proof.
  intros H. destruct rendered; try discriminate H. split.
  - unfold videoFrame, bind, read.
    destruct (sessionPromiseRef w); [|reflexivity].
    rewrite andb_false_r. reflexivity.
  - reflexivity.
Qed.

Lemma X9_callbacks_of_an_idle_render_witness :
  awakenButtonShown (appState mounted) = true /\
  videoFrame (appState mounted) frameEnv0 started0 = (Normal tt, started0).
Proof.
  split; [reflexivity|].
  exact (proj1 (X9_callbacks_of_an_idle_render (appState mounted) frameEnv0
                  started0 eq_refl)).
Defined.

(** In a render of any other state the same tick does send a frame. *)
Example video_frame_when_active :
  log (snd (videoFrame ACTIVE frameEnv0 started0))
  = log started0 ++ [SessionSendRealtimeInput 7%nat].
Proof. vm_compute. reflexivity. Qed.

(** ** Operations as chains of small changes *)

Lemma atoms_one (w w' : World) : atom w w' -> atoms w w'.
Proof.
  intros H. exact (atoms_cons H (atoms_nil w')).
Qed.

Lemma atoms_trans (w1 w2 w3 : World) :
  atoms w1 w2 -> atoms w2 w3 -> atoms w1 w3.
Proof.
  intros H. induction H as [w|w wa wb A _ IH]; intros G; [exact G|].
  exact (atoms_cons A (IH G)).
Qed.

Lemma atom_visualizationHook env (w : World) :
  atom w (snd (visualizationHook env w)).
Proof.
  apply atom_frame with (l := [SetTimeout 200]);
    [reflexivity|reflexivity|reflexivity|].
  intros c [<-|[]]. reflexivity.
Qed.

Lemma atom_schedulePlayback env ctx buf (w : World) :
  atom w (snd (schedulePlayback env ctx buf w)).
Proof.
  apply atom_schedule with (env := env) (ctx := ctx) (buf := buf).
  - apply schedulePlayback_nextNode.
  - apply schedulePlayback_sources.
  - apply schedulePlayback_log.
Qed.

Lemma atoms_handleAudioOutput dA dAD env message (w : World) :
  atoms w (snd (handleAudioOutput dA dAD env message w)).
Proof.
  destruct (handleAudioOutput_worlds dA dAD env message w)
    as [E|[E|[ctx [buf E]]]]; rewrite E.
  - apply atoms_nil.
  - apply atoms_one, atom_visualizationHook.
  - apply atoms_cons with (w1 := snd (visualizationHook env w)).
    + apply atom_visualizationHook.
    + apply atoms_one, atom_schedulePlayback.
Qed.

Lemma atoms_handleInterruptions env message (w : World) :
  atoms w (snd (handleInterruptions env message w)).
Proof.
  destruct (truthy_bool (interruptedFlag message)) eqn:F.
  - destruct (handleInterruptions_on_parts env message w F) as [K [S L]].
    apply atoms_one. apply atom_interrupt; assumption.
  - rewrite handleInterruptions_off by exact F. apply atoms_nil.
Qed.

Lemma teardownCalls_local (w : World) (c : Call) :
  In c (teardownCalls w) -> sourceOf c = None.
Proof.
  intros H. unfold teardownCalls in H.
  repeat (apply in_app_or in H; destruct H as [H|H]).
  - destruct (streamRef w) as [s|]; [|destruct H].
    apply in_map_iff in H. destruct H as [t [<- _]]. reflexivity.
  - destruct (inputAudioContextRef w); [|destruct H].
    destruct H as [<-|[]]. reflexivity.
  - destruct (outputAudioContextRef w); [|destruct H].
    destruct H as [<-|[]]. reflexivity.
  - destruct (truthy_id (videoIntervalRef w)); [|destruct H].
    destruct H as [<-|[]]. reflexivity.
Qed.

Lemma step_atoms dA dAD (op : Op) (w : World) : atoms w (step dA dAD op w).
Proof.
  destruct op as [env|sess|env message|source|]; unfold step, perform.
  - destruct (startMirror_parts env w) as [K [S [l [L F]]]].
    apply atoms_one. apply atom_frame with (l := l); assumption.
  - apply atoms_one. apply atom_frame with (l := []);
      [reflexivity|reflexivity| |intros c []].
    simpl. rewrite app_nil_r. reflexivity.
  - rewrite onmessage_unfold.
    pose proof (atoms_handleAudioOutput dA dAD env message w) as H.
    destruct (handleAudioOutput dA dAD env message w) as [[[|]|e] w1];
      cbn [snd] in *; try exact H.
    apply atoms_trans with (w2 := w1); [exact H|].
    apply atoms_handleInterruptions.
  - destruct (existsb (isListener source) (log w)) eqn:E.
    + apply isListener_registered in E.
      rewrite (deliverEnded_listening source w E). cbn [snd].
      apply atoms_one. apply atom_ended with (k := source);
        [exact E|reflexivity|reflexivity|reflexivity].
    + rewrite deliverEnded_deaf; [apply atoms_nil|].
      intros I. apply isListener_registered in I. congruence.
  - rewrite stopMirror_spec. cbn [snd]. apply atoms_one.
    apply atom_frame with (l := teardownCalls w);
      [reflexivity|reflexivity|reflexivity|apply teardownCalls_local].
Qed.

Lemma wellFormed_ext (w1 w2 : World) :
  nextNode w2 = nextNode w1 ->
  audioSourcesRef w2 = audioSourcesRef w1 ->
  log w2 = log w1 ->
  wellFormed w1 -> wellFormed w2.
Proof.
  intros K S L W.
  apply (@wellFormed_frame w1 w2 []); [exact K|exact S| |intros c []|exact W].
  rewrite app_nil_r. exact L.
Qed.

Lemma wellFormed_atom (w w' : World) :
  atom w w' -> wellFormed w -> wellFormed w'.
Proof.
  intros [l K S L F|env ctx buf K S L|K S L|k Li K S L] W.
  - exact (@wellFormed_frame w w' l K S L F W).
  - apply (@wellFormed_ext (snd (schedulePlayback env ctx buf w))).
    + rewrite schedulePlayback_nextNode. exact K.
    + rewrite schedulePlayback_sources. exact S.
    + rewrite schedulePlayback_log. exact L.
    + apply wellFormed_schedulePlayback, W.
  - destruct (@handleInterruptions_on_parts (quietAt 0) interruptMessage w eq_refl)
      as [K0 [S0 L0]].
    apply (@wellFormed_ext
             (snd (handleInterruptions (quietAt 0) interruptMessage w)));
      [congruence|congruence|congruence|].
    apply wellFormed_handleInterruptions, W.
  - apply (@wellFormed_ext (snd (deliverEnded k w))).
    + rewrite (deliverEnded_listening k w Li). exact K.
    + rewrite (deliverEnded_listening k w Li). exact S.
    + rewrite (deliverEnded_listening k w Li). exact L.
    + apply wellFormed_deliverEnded, W.
Qed.

(** ** Lists of starts and stops *)

Lemma startsOf_In (l : list Call) (n : SourceNode) (t : Q) :
  In (n, t) (startsOf l) <-> In (SourceStart n t) l.
Proof.
  induction l as [|c rest IH]; [simpl; tauto|].
  destruct c; simpl; rewrite ?IH; split; intros H;
    try (right; exact H);
    try (destruct H as [H|H]; [discriminate H|exact H]).
  - destruct H as [H|H]; [left; injection H as -> ->; reflexivity|right; exact H].
  - destruct H as [H|H]; [left; injection H as -> ->; reflexivity|right; exact H].
Qed.

Lemma stopsOf_In (l : list Call) (n : SourceNode) :
  In n (stopsOf l) <-> In (SourceStop n) l.
Proof.
  induction l as [|c rest IH]; [simpl; tauto|].
  destruct c; simpl; rewrite ?IH; split; intros H;
    try (right; exact H);
    try (destruct H as [H|H]; [discriminate H|exact H]).
  - destruct H as [H|H]; [left; rewrite H; reflexivity|right; exact H].
  - destruct H as [H|H]; [left; injection H as ->; reflexivity|right; exact H].
Qed.

Lemma stopsOf_app (l1 l2 : list Call) :
  stopsOf (l1 ++ l2) = stopsOf l1 ++ stopsOf l2.
Proof.
  induction l1 as [|c l1 IH]; [reflexivity|].
  destruct c; simpl; rewrite ?IH; reflexivity.
Qed.

Lemma startsOf_none (l : list Call) :
  (forall n t, ~ In (SourceStart n t) l) -> startsOf l = [].
Proof.
  intros H. destruct (startsOf l) as [|[n t] rest] eqn:E; [reflexivity|].
  exfalso. apply (H n t), startsOf_In. rewrite E. left. reflexivity.
Qed.

Lemma stopsOf_none (l : list Call) :
  (forall n, ~ In (SourceStop n) l) -> stopsOf l = [].
Proof.
  intros H. destruct (stopsOf l) as [|n rest] eqn:E; [reflexivity|].
  exfalso. apply (H n), stopsOf_In. rewrite E. left. reflexivity.
Qed.

Lemma stopsOf_stops (s : list SourceNode) : stopsOf (map SourceStop s) = s.
Proof.
  induction s as [|n rest IH]; [reflexivity|]. simpl. rewrite IH. reflexivity.
Qed.

Lemma NoDup_snoc (A : Type) (xs : list A) (x : A) :
  NoDup xs -> ~ In x xs -> NoDup (xs ++ [x]).
Proof.
  intros N H. induction N as [|y ys Hy N IH]; simpl.
  - constructor; [intros []|constructor].
  - constructor.
    + intros G. apply in_app_or in G. destruct G as [G|[G|[]]].
      * exact (Hy G).
      * apply H. left. symmetry. exact G.
    + apply IH. intros G. apply H. right. exact G.
Qed.

Lemma NoDup_append (A : Type) (xs ys : list A) :
  NoDup xs -> NoDup ys -> (forall x, In x ys -> ~ In x xs) -> NoDup (xs ++ ys).
Proof.
  intros N M D. induction N as [|y rest Hy N IH]; [exact M|].
  simpl. constructor.
  - intros G. apply in_app_or in G. destruct G as [G|G].
    + exact (Hy G).
    + apply (D y G). left. reflexivity.
  - apply IH. intros x Hx G. apply (D x Hx). right. exact G.
Qed.

Lemma NoDup_Set_add (n : SourceNode) (s : list SourceNode) :
  NoDup s -> NoDup (Set_add n s).
Proof.
  intros N. unfold Set_add. destruct (existsb (Nat.eqb n) s) eqn:E; [exact N|].
  apply NoDup_snoc; [exact N|]. intros H.
  assert (T : existsb (Nat.eqb n) s = true).
  { apply existsb_exists. exists n. split; [exact H|apply Nat.eqb_refl]. }
  congruence.
Qed.

Lemma NoDup_Set_delete (n : SourceNode) (s : list SourceNode) :
  NoDup s -> NoDup (Set_delete n s).
Proof.
  intros N. unfold Set_delete. apply NoDup_filter. exact N.
Qed.

Lemma stops_after_starts_app (l1 l2 : list Call) :
  (forall pre post n,
     l1 = pre ++ SourceStop n :: post -> exists t, In (SourceStart n t) pre) ->
  (forall n, In (SourceStop n) l2 -> exists t, In (SourceStart n t) l1) ->
  forall pre post n,
    l1 ++ l2 = pre ++ SourceStop n :: post ->
    exists t, In (SourceStart n t) pre.
Proof.
  intros O H pre post n E.
  apply app_eq_app in E. destruct E as [l0 [[E1 E2]|[E1 E2]]].
  - destruct l0 as [|c l0].
    + simpl in E2. rewrite app_nil_r in E1. subst l1.
      apply H. rewrite <- E2. left. reflexivity.
    + simpl in E2. injection E2 as <- E2.
      exact (O pre l0 n E1).
  - destruct (H n) as [t Ht].
    { rewrite E2. apply in_or_app. right. left. reflexivity. }
    exists t. rewrite E1. apply in_or_app. left. exact Ht.
Qed.

(** ** What every reachable log and set satisfy *)

Lemma orderly_mounted : orderly mounted.
Proof.
  unfold orderly, started, stopped, completed. simpl.
  split; [constructor|]. split; [constructor|]. split; [constructor|]. split.
  - intros pre post n H. destruct pre; discriminate H.
  - intros n [t []].
Qed.

Ltac in_log := apply in_or_app; left; assumption.

Lemma orderly_grows (w w' : World) (l : list Call) :
  log w' = log w ++ l ->
  NoDup (audioSourcesRef w') ->
  NoDup (map fst (startsOf (log w)) ++ map fst (startsOf l)) ->
  NoDup (stopsOf (log w) ++ stopsOf l) ->
  (forall n, In (SourceStop n) l -> exists t, In (SourceStart n t) (log w)) ->
  (forall n, In n (audioSourcesRef w) ->
     In n (audioSourcesRef w') \/ In (SourceStop n) l \/ In (EndedDelivered n) l) ->
  (forall n t, In (SourceStart n t) l -> In n (audioSourcesRef w')) ->
  orderly w -> orderly w'.
Proof.
  intros L Ns' Nst' Nsp' Hstop Hkeep Hnew [_ [_ [_ [Od Cm]]]].
  unfold orderly, started, stopped, completed. rewrite L.
  split; [exact Ns'|]. split; [|split; [|split]].
  - rewrite startsOf_app, map_app. exact Nst'.
  - rewrite stopsOf_app. exact Nsp'.
  - apply stops_after_starts_app; assumption.
  - intros n [t H]. apply in_app_or in H. destruct H as [H|H].
    + destruct (Cm n (ex_intro _ t H)) as [G|[G|G]].
      * destruct (Hkeep n G) as [G'|[G'|G']].
        -- left. exact G'.
        -- right. left. apply in_or_app. right. exact G'.
        -- right. right. apply in_or_app. right. exact G'.
      * right. left. unfold stopped in G. in_log.
      * right. right. unfold completed in G. in_log.
    + left. exact (Hnew n t H).
Qed.

Lemma orderly_atom (w w' : World) :
  atom w w' -> wellFormed w -> orderly w -> orderly w'.
Proof.
  intros [l K S L F|env ctx buf K S L|K S L|k Li K S L] [W1 W2] O;
    pose proof O as [Ns [Nst [Nsp _]]].
  - assert (A : forall n t, ~ In (SourceStart n t) l).
    { intros n t H. apply F in H. discriminate H. }
    assert (B : forall n, ~ In (SourceStop n) l).
    { intros n H. apply F in H. discriminate H. }
    apply (@orderly_grows w w' l L); try exact O.
    + rewrite S. exact Ns.
    + rewrite (startsOf_none l A). simpl. rewrite app_nil_r. exact Nst.
    + rewrite (stopsOf_none l B), app_nil_r. exact Nsp.
    + intros n H. destruct (B n H).
    + intros n H. left. rewrite S. exact H.
    + intros n t H. destruct (A n t H).
  - apply (@orderly_grows w w' _ L); try exact O.
    + rewrite S. apply NoDup_Set_add, Ns.
    + simpl. apply NoDup_snoc; [exact Nst|].
      intros H. apply in_map_iff in H. destruct H as [[n t] [E H]].
      simpl in E. subst n. apply startsOf_In in H.
      exact (Nat.lt_irrefl _ (W1 _ _ H eq_refl)).
    + simpl. rewrite app_nil_r. exact Nsp.
    + intros n H. simpl in H.
      destruct H as [H|[H|[H|[H|[H|[]]]]]]; discriminate H.
    + intros n H. left. rewrite S. apply Set_add_In. right. exact H.
    + intros n t H. simpl in H.
      destruct H as [H|[H|[H|[H|[H|[]]]]]]; try discriminate H.
      injection H as <- _. rewrite S. apply Set_add_In. left. reflexivity.
  - assert (A : forall n t, ~ In (SourceStart n t) (map SourceStop (audioSourcesRef w))).
    { intros n t H. apply in_map_iff in H. destruct H as [m [E _]]. discriminate E. }
    apply (@orderly_grows w w' _ L); try exact O.
    + rewrite S. constructor.
    + rewrite (startsOf_none _ A). simpl. rewrite app_nil_r. exact Nst.
    + rewrite stopsOf_stops. apply NoDup_append; [exact Nsp|exact Ns|].
      intros n Hn G. apply stopsOf_In in G.
      destruct (W2 n Hn) as [_ [_ [Sp _]]]. exact (Sp G).
    + intros n H. apply in_map_iff in H. destruct H as [m [E Hm]].
      injection E as ->. destruct (W2 n Hm) as [St _]. exact St.
    + intros n H. right. left. apply in_map. exact H.
    + intros n t H. destruct (A n t H).
  - apply (@orderly_grows w w' _ L); try exact O.
    + rewrite S. apply NoDup_Set_delete, Ns.
    + simpl. rewrite app_nil_r. exact Nst.
    + simpl. rewrite app_nil_r. exact Nsp.
    + intros n [H|[]]. discriminate H.
    + intros n H. destruct (Nat.eq_dec n k) as [->|Ne].
      * right. right. left. reflexivity.
      * left. rewrite S. apply Set_delete_In. split; assumption.
    + intros n t [H|[]]. discriminate H.
Qed.

Lemma sound_atoms (w w' : World) :
  atoms w w' -> wellFormed w /\ orderly w -> wellFormed w' /\ orderly w'.
Proof.
  intros H. induction H as [w|w w1 w2 A _ IH]; intros [W O]; [split; assumption|].
  apply IH. split.
  - exact (wellFormed_atom A W).
  - exact (orderly_atom A W O).
Qed.

Lemma sound_run dA dAD (ops : list Op) :
  forall w,
    wellFormed w /\ orderly w ->
    wellFormed (run dA dAD ops w) /\ orderly (run dA dAD ops w).
Proof.
  induction ops as [|op rest IH]; intros w H; [exact H|].
  simpl. apply IH. exact (sound_atoms (step_atoms dA dAD op w) H).
Qed.

Lemma sound_reachable dA dAD (ops : list Op) :
  wellFormed (run dA dAD ops mounted) /\ orderly (run dA dAD ops mounted).
Proof.
  apply sound_run. split; [apply wellFormed_mounted|apply orderly_mounted].
Qed.

(** X10.  In every world the component reaches from its mount, [start()]
    has been called at most once on any source: the sources started are
    pairwise distinct, each chunk getting a source of its own. *)
Theorem X10_start_once_per_source
    (dA : string -> Exn + list byte)
    (dAD : list byte -> AudioContext -> Z -> Z -> Exn + AudioBuffer)
    (ops : list Op) :
  NoDup (map fst (startsOf (log (run dA dAD ops mounted)))).
Proof.
  destruct (sound_reachable dA dAD ops) as [_ [_ [H _]]]. exact H.
Qed.

(** X11.  In every world the component reaches from its mount, [stop()]
    has been called at most once on any source, and only on a source on
    which [start()] had been called before. *)
Theorem X11_stop_once_and_after_start
    (dA : string -> Exn + list byte)
    (dAD : list byte -> AudioContext -> Z -> Z -> Exn + AudioBuffer)
    (ops : list Op) :
  let w := run dA dAD ops mounted in
  NoDup (stopsOf (log w)) /\
  forall pre post n,
    log w = pre ++ SourceStop n :: post ->
    exists t, In (SourceStart n t) pre.
Proof.
  cbv zeta. destruct (sound_reachable dA dAD ops) as [_ [_ [_ [H [G _]]]]].
  split; assumption.
Qed.

(** X12.  In every world the component reaches from its mount, the set
    holds exactly the sources that were started and were neither stopped
    nor had their completion callback run, each of them once. *)
Theorem X12_set_is_the_unfinished_sources
    (dA : string -> Exn + list byte)
    (dAD : list byte -> AudioContext -> Z -> Z -> Exn + AudioBuffer)
    (ops : list Op) :
  let w := run dA dAD ops mounted in
  NoDup (audioSourcesRef w) /\
  forall n,
    In n (audioSourcesRef w)
    <-> started n w /\ ~ stopped n w /\ ~ completed n w.
Proof.
  cbv zeta.
  destruct (sound_reachable dA dAD ops) as [[_ W] [N [_ [_ [_ C]]]]].
  split; [exact N|]. intros n. split.
  - intros H. destruct (W n H) as [St [_ [Sp Co]]]. auto.
  - intros [St [Sp Co]]. destruct (C n St) as [H|[H|H]].
    + exact H.
    + destruct (Sp H).
    + destruct (Co H).
Qed.

(** After a start, two chunks, an interruption and a third chunk, the log
    has three starts on three sources and two stops, and the set holds the
    third source. *)
Example starts_and_stops_of_a_session :
  let w := run decodeAudio_sample decodeAudioData_sample
             [StartMirror startEnv0;
              OnMessage (quietAt 0) (audioMessage "AAAA" None);
              OnMessage (quietAt (1 # 100000)) (audioMessage "AAAAAA" None);
              OnMessage (quietAt (5 # 100000)) interruptMessage;
              OnEnded 0%nat;
              OnMessage (quietAt (6 # 100000)) (audioMessage "AAAA" None)]
             mounted in
  map fst (startsOf (log w)) = [0%nat; 1%nat; 2%nat] /\
  stopsOf (log w) = [0%nat; 1%nat] /\
  audioSourcesRef w = [2%nat].
Proof. vm_compute. repeat split. Qed.

(** ** The output context ref *)

Lemma handleInterruptions_context env message (w : World) :
  outputAudioContextRef (snd (handleInterruptions env message w))
  = outputAudioContextRef w.
Proof.
  destruct (truthy_bool (interruptedFlag message)) eqn:F.
  - rewrite handleInterruptions_on by exact F. cbn [snd].
    destruct (outputAudioContextRef w) eqn:C; simpl; congruence.
  - rewrite handleInterruptions_off by exact F. reflexivity.
Qed.

Lemma onmessage_context dA dAD env message (w : World) :
  outputAudioContextRef (snd (onmessage dA dAD env message w))
  = outputAudioContextRef w.
Proof.
  rewrite onmessage_unfold.
  assert (H : outputAudioContextRef (snd (handleAudioOutput dA dAD env message w))
              = outputAudioContextRef w).
  { destruct (handleAudioOutput_worlds dA dAD env message w)
      as [E|[E|[ctx [buf E]]]]; rewrite E; reflexivity. }
  destruct (handleAudioOutput dA dAD env message w) as [[[|]|e] w1];
    cbn [snd] in *; try exact H.
  rewrite handleInterruptions_context. exact H.
Qed.

Lemma step_context dA dAD (op : Op) (w : World) :
  outputAudioContextRef (step dA dAD op w) = outputAudioContextRef w \/
  exists env,
    op = StartMirror env /\ reachesContexts env = true /\
    outputAudioContextRef (step dA dAD op w) = Some (newOutputContext env).
Proof.
  destruct op as [env|sess|env message|source|]; unfold step, perform.
  - destruct (reachesContexts env) eqn:R.
    + right. exists env. split; [reflexivity|]. split; [exact R|].
      exact (proj1 (proj2 (startMirror_cursor env w R))).
    + left. exact (proj1 (proj2 (startMirror_fails env w R))).
  - left. reflexivity.
  - left. apply onmessage_context.
  - left. unfold deliverEnded, bind, read.
    destruct (existsb (isListener source) (log w)); reflexivity.
  - left. rewrite stopMirror_spec. reflexivity.
Qed.

Lemma step_without_context dA dAD (op : Op) (w : World) :
  outputAudioContextRef (step dA dAD op w) = None ->
  audioSourcesRef w = [] ->
  audioSourcesRef (step dA dAD op w) = [] /\
  nextNode (step dA dAD op w) = nextNode w.
Proof.
  intros C S.
  assert (C0 : outputAudioContextRef w = None).
  { destruct (step_context dA dAD op w) as [E|[env [_ [_ E]]]]; congruence. }
  destruct op as [env|sess|env message|source|]; unfold step, perform in *.
  - destruct (startMirror_parts env w) as [K [S' _]]. split; congruence.
  - split; [exact S|reflexivity].
  - rewrite onmessage_unfold.
    destruct (truthy_string (base64Audio message)) as [base64|] eqn:A.
    + rewrite (handleAudioOutput_no_context dA dAD env message w A C0).
      split; [exact S|reflexivity].
    + rewrite (handleAudioOutput_no_audio dA dAD env message w A).
      destruct (truthy_bool (interruptedFlag message)) eqn:F.
      * destruct (handleInterruptions_on_parts env message w F) as [K [S' _]].
        split; assumption.
      * rewrite handleInterruptions_off by exact F. split; [exact S|reflexivity].
  - unfold deliverEnded, bind, read.
    destruct (existsb (isListener source) (log w)); simpl;
      rewrite ?S; split; reflexivity.
  - rewrite stopMirror_spec. split; [exact S|reflexivity].
Qed.

Lemma run_without_context dA dAD (ops : list Op) :
  forall w,
    (outputAudioContextRef w = None ->
     audioSourcesRef w = [] /\ nextNode w = 0%nat) ->
    outputAudioContextRef (run dA dAD ops w) = None ->
    audioSourcesRef (run dA dAD ops w) = [] /\
    nextNode (run dA dAD ops w) = 0%nat.
Proof.
  induction ops as [|op rest IH]; intros w H; [exact H|].
  simpl. apply IH. intros C.
  assert (C0 : outputAudioContextRef w = None).
  { destruct (step_context dA dAD op w) as [E|[env [_ [_ E]]]]; congruence. }
  destruct (H C0) as [S K].
  destruct (step_without_context dA dAD op w C S) as [S' K'].
  split; congruence.
Qed.

(** X13.  No operation sets [outputAudioContextRef] back to null once it
    holds a context, so the guard at the top of the audio branch can only
    fire before the first start that creates the contexts; and in every
    world reached from the mount in which the ref is still null, no source
    has ever been created or started and the set is empty, so the return
    of the guard, which also skips the interruption branch, leaves nothing
    playing. *)
Theorem X13_context_ref_is_never_cleared
    (dA : string -> Exn + list byte)
    (dAD : list byte -> AudioContext -> Z -> Z -> Exn + AudioBuffer) :
  (forall op w,
     outputAudioContextRef w <> None ->
     outputAudioContextRef (step dA dAD op w) <> None) /\
  (forall ops,
     let w := run dA dAD ops mounted in
     outputAudioContextRef w = None ->
     audioSourcesRef w = [] /\ nextNode w = 0%nat /\ startsOf (log w) = []).
Proof.
  split.
  - intros op w H.
    destruct (step_context dA dAD op w) as [E|[env [_ [_ E]]]];
      rewrite E; [exact H|discriminate].
  - intros ops. cbv zeta. intros C.
    destruct (run_without_context dA dAD ops mounted) as [S K];
      [intros _; split; reflexivity|exact C|].
    split; [exact S|]. split; [exact K|].
    apply startsOf_none. intros n t H.
    destruct (sound_reachable dA dAD ops) as [[W _] _].
    specialize (W _ _ H eq_refl). rewrite K in W. inversion W.
Qed.

Lemma X13_context_ref_is_never_cleared_witness :
  outputAudioContextRef stopped0 <> None /\
  outputAudioContextRef
    (step decodeAudio_sample decodeAudioData_sample StopMirror stopped0)
  <> None.
Proof.
  assert (H : outputAudioContextRef stopped0 <> None) by (intros E; discriminate E).
  split; [exact H|].
  exact (proj1 (X13_context_ref_is_never_cleared decodeAudio_sample
                  decodeAudioData_sample) StopMirror stopped0 H).
Defined.

(** ** Completion callbacks and restarts *)

Lemma Set_delete_absent (k : SourceNode) (s : list SourceNode) :
  ~ In k s -> Set_delete k s = s.
Proof.
  intros H. unfold Set_delete. induction s as [|x rest IH]; [reflexivity|].
  simpl. destruct (Nat.eqb k x) eqn:E.
  - apply Nat.eqb_eq in E. subst x. exfalso. apply H. left. reflexivity.
  - simpl. rewrite IH; [reflexivity|]. intros G. apply H. right. exact G.
Qed.

(** X14.  The completion callback of a source touches that source only:
    every other source is in the set afterwards exactly if it was before,
    a callback for a source that is no longer in the set, as after an
    interruption, leaves the set as it is, and in no case does the
    callback move the cursor or call [start()] or [stop()]. *)
Theorem X14_completion_touches_its_source_only
    (dA : string -> Exn + list byte)
    (dAD : list byte -> AudioContext -> Z -> Z -> Exn + AudioBuffer)
    (k : SourceNode) (w : World) :
  let w' := step dA dAD (OnEnded k) w in
  (forall n, n <> k ->
     (In n (audioSourcesRef w') <-> In n (audioSourcesRef w))) /\
  (~ In k (audioSourcesRef w) -> audioSourcesRef w' = audioSourcesRef w) /\
  nextStartTimeRef w' = nextStartTimeRef w /\
  startsOf (log w') = startsOf (log w) /\
  stopsOf (log w') = stopsOf (log w).
Proof.
  cbv zeta. unfold step, perform.
  destruct (existsb (isListener k) (log w)) eqn:E.
  - apply isListener_registered in E.
    rewrite (deliverEnded_listening k w E). cbn [snd]. simpl.
    split; [|split; [|split; [|split]]].
    + intros n Ne. rewrite Set_delete_In. tauto.
    + apply Set_delete_absent.
    + reflexivity.
    + rewrite startsOf_app. simpl. apply app_nil_r.
    + rewrite stopsOf_app. simpl. apply app_nil_r.
  - assert (D : ~ In (AddEndedListener k) (log w)).
    { intros I. apply isListener_registered in I. congruence. }
    rewrite (deliverEnded_deaf k w D). cbn [snd].
    split; [|split; [|split; [|split]]]; try reflexivity; tauto.
Qed.

(** X15.  A stop followed by a start keeps the set: the sources scheduled
    in the session that was stopped are still in it, no [stop()] has been
    called on any of them, and when the start creates its contexts the
    cursor is the clock time of the new output context. *)
Theorem X15_restart_keeps_the_set
    (dA : string -> Exn + list byte)
    (dAD : list byte -> AudioContext -> Z -> Z -> Exn + AudioBuffer)
    (env : StartEnv) (w : World) :
  reachesContexts env = true ->
  let w' := run dA dAD [StopMirror; StartMirror env] w in
  audioSourcesRef w' = audioSourcesRef w /\
  stopsOf (log w') = stopsOf (log w) /\
  nextStartTimeRef w' = outputCurrentTime env /\
  outputAudioContextRef w' = Some (newOutputContext env).
Proof.
  intros R. cbv zeta.
  change (run dA dAD [StopMirror; StartMirror env] w)
    with (snd (startMirror env (snd (stopMirror w)))).
  set (w1 := snd (stopMirror w)).
  destruct (startMirror_parts env w1) as [_ [S [l [L F]]]].
  destruct (startMirror_cursor env w1 R) as [T [C _]].
  split; [|split; [|split]].
  - rewrite S. unfold w1. rewrite stopMirror_spec. reflexivity.
  - rewrite L, stopsOf_app.
    rewrite (stopsOf_none l) by (intros n H; apply F in H; discriminate H).
    rewrite app_nil_r. unfold w1. rewrite stopMirror_spec. cbn [snd]. simpl.
    rewrite stopsOf_app.
    rewrite (stopsOf_none (teardownCalls w))
      by (intros n H; apply teardownCalls_local in H; discriminate H).
    apply app_nil_r.
  - exact T.
  - exact C.
Qed.

Lemma X15_restart_keeps_the_set_witness :
  reachesContexts startEnv0 = true /\
  audioSourcesRef
    (run decodeAudio_sample decodeAudioData_sample
       [StopMirror; StartMirror startEnv0] playingA)
  = audioSourcesRef playingA.
Proof.
  split; [reflexivity|].
  exact (proj1 (X15_restart_keeps_the_set decodeAudio_sample
                  decodeAudioData_sample startEnv0 playingA eq_refl)).
Defined.
